(** * Cross-repository text search: [services/backend/graphqlbackend/textsearch.go]

    A shallow embedding of the searcher client ([textSearch]), the
    per-repository search ([searchRepo]), the aggregator ([accumulate]) and
    the orchestrator ([SearchRepos]) together with the properties the
    specification states about them.

    Conventions.
    - A Go [int32] is a [Z] together with its wrap-around ([wrap32]).
    - A Go pointer [*T] is [ptr T] = [option T]; [None] is [nil], and
      dereferencing [nil] panics ([Panicked]).
    - A Go call returning [(T, error)] whose error the caller tests before
      using the value is a sum [error + T]; where the caller does not test
      the error the raw pair is kept.
    - External collaborators (the repository store, the revision resolver,
      the HTTP transport, the JSON decoder, the URI parser) are the fields
      of an [Env] record: a fixed set of backend responses.
    - The goroutines of [SearchRepos] are an interleaving transition system
      ([step]) over an explicit [state]. *)

From Stdlib Require Import ZArith String Ascii List Lia Permutation Sorted.
From stdpp Require Import base list gmap strings sorting.

Open Scope string_scope.
Open Scope list_scope.

(** ** Data model *)

Abbreviation ptr A := (option A) (only parsing).

(** Go error values.  [ConfigurationError] is
    [errors.New("a searcher service has not been configured")] and
    [RemoteError] is [fmt.Errorf("non-200 response: code=%d body=%s", ...)];
    [ContextCanceled] and [ContextDeadlineExceeded] are [context.Canceled]
    and [context.DeadlineExceeded]; the others are raised by collaborators. *)
Inductive error : Type :=
  | ConfigurationError
  | NetworkError (msg : string)
  | RemoteError (code : Z) (body : string)
  | ProtocolError (msg : string)
  | StoreError (msg : string)
  | ContextCanceled
  | ContextDeadlineExceeded.

#[global] Instance error_eq_dec : EqDecision error.
Proof. solve_decision. Defined.

(** The result of running a piece of Go code that may panic. *)
Inductive outcome (A : Type) : Type :=
  | Returned (a : A)
  | Panicked.
Arguments Returned {A} a.
Arguments Panicked {A}.

Record patternInfo : Type := {
  Pattern : string;
  IsRegExp : bool;
  IsWordMatch : bool;
  IsCaseSensitive : bool
}.

Record lineMatch : Type := {
  JPreview : string;
  JLineNumber : Z;                      (* int32 *)
  JOffsetAndLengths : list (list Z)     (* [][]int32 *)
}.

Record fileMatch : Type := {
  JPath : string;
  JLineMatches : list (ptr lineMatch)
}.

(** ** 32-bit arithmetic *)

Definition min_int32 : Z := (- 2 ^ 31)%Z.
Definition max_int32 : Z := (2 ^ 31 - 1)%Z.

Definition in_int32 (z : Z) : Prop := (min_int32 <= z <= max_int32)%Z.

(** Two's-complement wrap-around of Go's [int32] arithmetic. *)
Definition wrap32 (z : Z) : Z := ((z + 2 ^ 31) mod 2 ^ 32 - 2 ^ 31)%Z.

(** ** Accessors of the match types *)

Definition fileMatch_Path (fm : fileMatch) : string := JPath fm.
Definition fileMatch_LineMatches (fm : fileMatch) : list (ptr lineMatch) :=
  JLineMatches fm.

Definition Preview (lm : lineMatch) : string := JPreview lm.

(** [func (lm *lineMatch) LineNumber() int32 { return lm.JLineNumber + 1 }] *)
Definition LineNumber (lm : lineMatch) : Z := wrap32 (JLineNumber lm + 1).

Definition OffsetAndLengths (lm : lineMatch) : list (list Z) :=
  JOffsetAndLengths lm.

(** ** The searcher client *)

(** An outgoing HTTP request.  [RawQuery] keeps the [url.Values] map that
    [q.Encode()] serialises. *)
Record Request : Type := {
  Method : string;
  URL : string;
  RawQuery : gmap string (list string)
}.

(** A response: its status code and its body stream, which yields either
    all of its bytes or a read error. *)
Record Response : Type := {
  StatusCode : Z;
  Body : error + string
}.

(** Modelled from the spec: the declaration of [uri.URI] (package
    [xlang/uri]) is not part of the sources; the specification describes
    the identity of a match as the compound key (repository, snapshot id,
    file path).  [Path] is the component [accumulate] reads as [uri.Path]. *)
Record URI : Type := {
  Repo : string;
  Rev : string;
  Path : string
}.

Record repoMatch : Type := {
  uri : URI;
  lineMatches : list (ptr lineMatch)
}.

Definition repoMatch_LineMatches (rm : repoMatch) : list (ptr lineMatch) :=
  lineMatches rm.

(** Modelled from the spec: the repository identity and the snapshot id
    that the metadata collaborator hands back ([localstore.Repos.GetByURI],
    [backend.Repos.ResolveRev]); their types are declared outside the
    sources, and only the fields [searchRepo] reads are kept. *)
Record RepoRecord : Type := { ID : Z }.
Record ResolvedRev : Type := { CommitID : string }.

(** The collaborators of one call: a fixed set of backend responses.  The
    context a collaborator is handed is not an argument of its: an [Env]
    stands for what the collaborators answer under the context they are
    called with.  Inside [SearchRepos] that is always a cancelled context,
    since a worker gets to [searchRepo] only past [<-ctx.Done()], and under
    a cancelled context [client.Do] fails.  The results on [SearchRepos]
    hold for every [Env]; the sample runs of [SearchRepos] below use
    failures that do not depend on the context. *)
Record Env : Type := {
  (** [var searcherURL = env.Get("SEARCHER_URL", "", ...)] *)
  searcherURL : string;
  (** the error [http.NewRequest] reports for a URL, if any *)
  NewRequest_err : string → option error;
  (** [client.Do]: the transport *)
  client_Do : Request → error + Response;
  (** [json.NewDecoder(body).Decode(&matches)]: what was decoded, and the
      decoding error if any *)
  json_Decode : string → list (ptr fileMatch) * option error;
  (** [localstore.Repos.GetByURI] *)
  GetByURI : string → error + RepoRecord;
  (** [backend.Repos.ResolveRev]: the raw Go pair, since [searchRepo] does
      not test its error *)
  ResolveRev : Z → ptr ResolvedRev * option error;
  (** [uri.Parse] *)
  uri_Parse : string → error + URI
}.

(** Calls that leave the process. *)
Inductive event : Type :=
  | EvGetByURI (name : string)
  | EvResolveRev (repo : Z)
  | EvSearcher (req : Request).

(** The query of [textSearch]: [Repo], [Commit], [Pattern] always; each flag
    only when it is set. *)
Definition query (repo commit : string) (p : patternInfo)
  : gmap string (list string) :=
  let q : gmap string (list string) :=
    <["Repo" := [repo]]>
      (<["Commit" := [commit]]> (<["Pattern" := [Pattern p]]> ∅)) in
  let q := if IsRegExp p then <["IsRegExp" := ["true"]]> q else q in
  let q := if IsWordMatch p then <["IsWordMatch" := ["true"]]> q else q in
  let q := if IsCaseSensitive p then <["IsCaseSensitive" := ["true"]]> q else q in
  q.

(** [textSearch]: the value returned (the Go pair [(matches, err)]) and the
    requests put on the wire, in order. *)
Definition textSearch (E : Env) (repo commit : string) (p : patternInfo)
  : (list (ptr fileMatch) * option error) * list event :=
  if String.eqb (searcherURL E) "" then (([], Some ConfigurationError), [])
  else
    let q := query repo commit p in
    match NewRequest_err E (searcherURL E) with
    | Some err => (([], Some err), [])
    | None =>
        let req := {| Method := "GET"; URL := searcherURL E; RawQuery := q |} in
        match client_Do E req with
        | inl err => (([], Some err), [EvSearcher req])
        | inr resp =>
            if negb (Z.eqb (StatusCode resp) 200) then
              match Body resp with
              | inl err => (([], Some err), [EvSearcher req])
              | inr body =>
                  (([], Some (RemoteError (StatusCode resp) body)), [EvSearcher req])
              end
            else
              match Body resp with
              | inl err => (([], Some err), [EvSearcher req])
              | inr body => (json_Decode E body, [EvSearcher req])
              end
        end
    end.

(** ** Searching one repository *)

(** The loop of [searchRepo] over the file matches: [fm.JLineMatches]
    dereferences [fm]; a URI that does not parse ends the call. *)
Fixpoint repoMatches_of (E : Env) (repoName commitID : string)
    (fileMatches : list (ptr fileMatch))
  : outcome (list repoMatch * option error) :=
  match fileMatches with
  | [] => Returned ([], None)
  | None :: _ => Panicked
  | Some fm :: rest =>
      match uri_Parse E (repoName +:+ "?" +:+ commitID +:+ "#" +:+ JPath fm) with
      | inl err => Returned ([], Some err)
      | inr u =>
          match repoMatches_of E repoName commitID rest with
          | Returned (rms, None) =>
              Returned ({| uri := u; lineMatches := JLineMatches fm |} :: rms, None)
          | other => other
          end
      end
  end.

(** [searchRepo].  The error of [ResolveRev] is overwritten by the next
    assignment to [err] without having been tested; [commit.CommitID] is
    evaluated before [textSearch] is entered. *)
Definition searchRepo (E : Env) (repoName : string) (info : patternInfo)
  : outcome (list repoMatch * option error) * list event :=
  match GetByURI E repoName with
  | inl err => (Returned ([], Some err), [EvGetByURI repoName])
  | inr repo =>
      let evs := [EvGetByURI repoName; EvResolveRev (ID repo)] in
      match ResolveRev E (ID repo) with
      | (None, _) => (Panicked, evs)
      | (Some commit, _) =>
          let '((fileMatches, err), net) :=
            textSearch E repoName (CommitID commit) info in
          match err with
          | Some e => (Returned ([], Some e), evs ++ net)
          | None =>
              (repoMatches_of E repoName (CommitID commit) fileMatches, evs ++ net)
          end
      end
  end.

(** ** The aggregator *)

(** The comparison [accumulate] hands to [sort.Slice]: fewer line matches
    first, then [strings.Compare] of the paths. *)
Definition less (a b : repoMatch) : bool :=
  let na := length (lineMatches a) in
  let nb := length (lineMatches b) in
  if negb (na =? nb)%nat then (na <? nb)%nat
  else match String.compare (Path (uri a)) (Path (uri b)) with
       | Lt => true
       | _ => false
       end.

(** The inner loop of Go's [insertionSort_func]: the element [x] at index
    [j] is swapped leftwards while [less(j, j-1)].  [before] is the part of
    the slice to the left of [x], nearest neighbour first. *)
Fixpoint sift {A : Type} (lt : A → A → bool) (x : A) (before : list A) : list A :=
  match before with
  | [] => [x]
  | y :: r => if lt x y then y :: sift lt x r else x :: y :: r
  end.

(** [sort.Slice].  The embedding runs Go's [insertionSort_func], which is
    all that [sort.Slice] does to a slice of up to six entries.  On longer
    slices [sort.Slice] first moves entries over longer distances (a pass
    with gap six, and a quicksort above twelve entries), which may leave
    entries that compare equal in another order than this insertion sort
    does.  [sort.Slice] promises a sorted rearrangement and no stability,
    and the general results below use only that contract
    ([sort_Slice_Permutation], [sort_Slice_sorted]); the examples that
    compute [accumulate] have at most three entries. *)
Definition sort_Slice {A : Type} (lt : A → A → bool) (data : list A) : list A :=
  rev (fold_left (fun before x => sift lt x before) data []).

(** [accumulate]: [responses] lists the batches in the order in which they
    arrive on the channel; the value is what is sent on [result]. *)
Definition accumulate (responses : list (list repoMatch)) : list repoMatch :=
  sort_Slice less (concat responses).

(** The two sort keys of an entry. *)
Definition sort_key (rm : repoMatch) : nat * string :=
  (length (lineMatches rm), Path (uri rm)).

(** [x] may stand before [y] in a slice sorted by [lt]: [y] is not less
    than [x]. *)
Definition not_after {A : Type} (lt : A → A → bool) (x y : A) : Prop :=
  lt y x = false.

(** [a] may stand before [b] in what [accumulate] returns. *)
Definition may_precede (a b : repoMatch) : Prop := not_after less a b.

(** ** The orchestrator as a transition system *)

(** The pool size: [for i := 0; i < 10; i++]. *)
Definition nworkers : nat := 10.

(** Where a worker goroutine stands:
    - [WRecv]: at [for repo := range repositories], waiting for an item;
    - [WCheck repo]: at the receive [<-ctx.Done()];
    - [WSearch repo]: inside [searchRepo(ctx, repo, &args.Info)];
    - [WSend rm]: at [responses <- rm];
    - [WDone]: returned, [wg.Done()] has run. *)
Inductive wstate : Type :=
  | WRecv
  | WCheck (repo : string)
  | WSearch (repo : string)
  | WSend (rm : list repoMatch)
  | WDone.

(** Where the calling goroutine stands:
    - [MFeed rest]: in the loop [repositories <- repo], [rest] still to send;
    - [MWait]: [repositories] closed, in [wg.Wait()];
    - [MCheck]: [responses] closed, about to test [ctx.Err()];
    - [MResult]: at [<-result];
    - [MDone ret]: returned the Go pair [ret];
    - [MCrashed]: a goroutine panicked and took the process down. *)
Inductive mstate : Type :=
  | MFeed (rest : list string)
  | MWait
  | MCheck
  | MResult
  | MDone (ret : list repoMatch * option error)
  | MCrashed.

(** Where the [accumulate] goroutine stands: in its [range responses] loop
    with the batches [received] so far, in order of arrival; at
    [result <- flattened]; or returned. *)
Inductive astate : Type :=
  | ARecv (received : list (list repoMatch))
  | ASend (flattened : list repoMatch)
  | ADone.

(** [ctx_err] is [ctx.Err()] of the context made by [context.WithCancel];
    [parent_done] tells whether the caller's context has been cancelled.
    [first_failure] and [events] are history variables: the first error a
    worker got from [searchRepo], and the external calls made so far. *)
Record state : Type := {
  ctx_err : option error;
  parent_done : bool;
  main : mstate;
  workers : list wstate;
  acc : astate;
  first_failure : option error;
  events : list event
}.

Definition set_main (m : mstate) (s : state) : state :=
  {| ctx_err := ctx_err s; parent_done := parent_done s; main := m;
     workers := workers s; acc := acc s;
     first_failure := first_failure s; events := events s |}.

Definition set_worker (i : nat) (w : wstate) (s : state) : state :=
  {| ctx_err := ctx_err s; parent_done := parent_done s; main := main s;
     workers := <[i := w]> (workers s); acc := acc s;
     first_failure := first_failure s; events := events s |}.

Definition set_acc (a : astate) (s : state) : state :=
  {| ctx_err := ctx_err s; parent_done := parent_done s; main := main s;
     workers := workers s; acc := a;
     first_failure := first_failure s; events := events s |}.

Definition set_ctx_err (c : option error) (s : state) : state :=
  {| ctx_err := c; parent_done := parent_done s; main := main s;
     workers := workers s; acc := acc s;
     first_failure := first_failure s; events := events s |}.

(** The first error wins: cancelling a cancelled context changes nothing. *)
Definition cancel_with (e : error) (c : option error) : option error :=
  match c with
  | None => Some e
  | Some e0 => Some e0
  end.

(** [cancel()], the function returned by [context.WithCancel]. *)
Definition cancel (s : state) : state :=
  set_ctx_err (cancel_with ContextCanceled (ctx_err s)) s.

(** The caller's context is cancelled or its deadline passes. *)
Definition parent_cancel (deadline : bool) (s : state) : state :=
  let e := if deadline then ContextDeadlineExceeded else ContextCanceled in
  {| ctx_err := cancel_with e (ctx_err s); parent_done := true; main := main s;
     workers := workers s; acc := acc s;
     first_failure := first_failure s; events := events s |}.

(** The receive [_, ok := <-ctx.Done()].  Nothing is ever sent on the
    channel [ctx.Done()]; it is only closed, when the context is cancelled.
    While it is open the receive blocks ([None]); once it is closed the
    receive yields the zero value with [ok = false]. *)
Definition recv_Done (c : option error) : option bool :=
  match c with
  | None => None
  | Some _ => Some false
  end.

Definition record_failure (e : error) (evs : list event) (s : state) : state :=
  {| ctx_err := ctx_err s; parent_done := parent_done s; main := main s;
     workers := workers s; acc := acc s;
     first_failure := cancel_with e (first_failure s);
     events := events s ++ evs |}.

Definition record_events (evs : list event) (s : state) : state :=
  {| ctx_err := ctx_err s; parent_done := parent_done s; main := main s;
     workers := workers s; acc := acc s;
     first_failure := first_failure s; events := events s ++ evs |}.

Definition is_done (w : wstate) : bool :=
  match w with WDone => true | _ => false end.

Definition repositories_closed (m : mstate) : bool :=
  match m with MFeed _ => false | _ => true end.

Definition responses_closed (m : mstate) : bool :=
  match m with MCheck | MResult | MDone _ => true | _ => false end.

(** One atomic move of one goroutine, or of the caller's environment. *)
Inductive label : Type :=
  | EnvCancel (deadline : bool) (* the caller's context is cancelled *)
  | Feed (i : nat)       (* [repositories <- repo] meets worker [i]'s receive *)
  | CloseRepos           (* [close(repositories)], then on to [wg.Wait()] *)
  | Exit (i : nat)       (* worker [i]'s [range] ends on the closed channel *)
  | Check (i : nat)      (* worker [i]'s receive from [ctx.Done()] completes *)
  | Search (i : nat)     (* worker [i]'s [searchRepo] call completes *)
  | Send (i : nat)       (* [responses <- rm] meets [accumulate]'s receive *)
  | Join                 (* [wg.Wait()] returns; [close(responses)] *)
  | Sort                 (* [accumulate]'s [range] ends; it flattens and sorts *)
  | CheckErr             (* [if err := ctx.Err(); err != nil], [cancel()] *)
  | Result.              (* [<-result] meets [result <- flattened] *)

Definition is_internal (l : label) : bool :=
  match l with EnvCancel _ => false | _ => true end.

Definition step (E : Env) (info : patternInfo) (l : label) (s : state)
  : option state :=
  match main s with
  | MCrashed => None
  | m =>
    match l with
    | EnvCancel deadline =>
        if parent_done s then None else Some (parent_cancel deadline s)
    | Feed i =>
        match m, workers s !! i with
        | MFeed (repo :: rest), Some WRecv =>
            Some (set_worker i (WCheck repo) (set_main (MFeed rest) s))
        | _, _ => None
        end
    | CloseRepos =>
        match m with
        | MFeed [] => Some (set_main MWait s)
        | _ => None
        end
    | Exit i =>
        match workers s !! i with
        | Some WRecv =>
            if repositories_closed m then Some (set_worker i WDone s) else None
        | _ => None
        end
    | Check i =>
        match workers s !! i with
        | Some (WCheck repo) =>
            match recv_Done (ctx_err s) with
            | None => None
            | Some ok =>
                if ok then Some (set_worker i WDone s)
                else Some (set_worker i (WSearch repo) s)
            end
        | _ => None
        end
    | Search i =>
        match workers s !! i with
        | Some (WSearch repo) =>
            match searchRepo E repo info with
            | (Returned (rm, None), evs) =>
                Some (set_worker i (WSend rm) (record_events evs s))
            | (Returned (_, Some err), evs) =>
                Some (set_worker i WDone (cancel (record_failure err evs s)))
            | (Panicked, evs) =>
                Some (set_main MCrashed (record_events evs s))
            end
        | _ => None
        end
    | Send i =>
        match workers s !! i, acc s with
        | Some (WSend rm), ARecv received =>
            Some (set_worker i WRecv (set_acc (ARecv (received ++ [rm])) s))
        | _, _ => None
        end
    | Join =>
        match m with
        | MWait =>
            if forallb is_done (workers s) then Some (set_main MCheck s) else None
        | _ => None
        end
    | Sort =>
        match acc s with
        | ARecv received =>
            if responses_closed m
            then Some (set_acc (ASend (accumulate received)) s)
            else None
        | _ => None
        end
    | CheckErr =>
        match m with
        | MCheck =>
            match ctx_err s with
            | Some err => Some (set_main (MDone ([], Some err)) (cancel s))
            | None => Some (set_main MResult (cancel s))
            end
        | _ => None
        end
    | Result =>
        match m, acc s with
        | MResult, ASend flattened =>
            Some (set_main (MDone (flattened, None)) (set_acc ADone s))
        | _, _ => None
        end
    end
  end.

(** Running a schedule: [None] when one of its moves is not enabled. *)
Fixpoint exec (E : Env) (info : patternInfo) (sched : list label) (s : state)
  : option state :=
  match sched with
  | [] => Some s
  | l :: rest =>
      match step E info l s with
      | Some s' => exec E info rest s'
      | None => None
      end
  end.

(** The state of [SearchRepos] once the accumulator and the ten workers
    have been started and the feeding loop is about to begin. *)
Definition init (repos : list string) : state :=
  {| ctx_err := None; parent_done := false; main := MFeed repos;
     workers := replicate nworkers WRecv; acc := ARecv [];
     first_failure := None; events := [] |}.

(** [SearchRepos]: what the call has returned at the end of the schedule
    [sched], the Go pair [(result, err)]; [None] when the schedule cannot
    be run or the call has not returned by its end. *)
Definition SearchRepos (E : Env) (info : patternInfo) (repos : list string)
    (sched : list label) : option (list repoMatch * option error) :=
  match exec E info sched (init repos) with
  | Some s =>
      match main s with
      | MDone ret => Some ret
      | _ => None
      end
  | None => None
  end.

(** A schedule in which the caller's context is never cancelled. *)
Definition quiet (sched : list label) : bool := forallb is_internal sched.

(** Moves the environment is allowed: with [calm], the caller's context
    stays alive. *)
Definition allowed (calm : bool) (l : label) : bool :=
  is_internal l || negb calm.

(** [must_return calm P s]: from [s], whatever the scheduler does, the
    call returns after finitely many moves, and what it returns satisfies
    [P].  A state that has not returned must have a goroutine able to
    move. *)
Inductive must_return (E : Env) (info : patternInfo) (calm : bool)
    (P : list repoMatch * option error → Prop) : state → Prop :=
  | must_return_done s ret :
      main s = MDone ret → P ret → must_return E info calm P s
  | must_return_step s :
      (∃ l s', is_internal l = true ∧ step E info l s = Some s') →
      (∀ l s', allowed calm l = true → step E info l s = Some s' →
               must_return E info calm P s') →
      must_return E info calm P s.

(** ** The blame line: [blame/dom.tsx]

    A JavaScript string is the list of its UTF-16 code units; the number
    [n] is taken to be an integer, as it is at both call sites (80 and
    6). *)

(** The code unit of the character […] (U+2026). *)
Definition ellipsis : N := 8230%N.

(** [s.substring(0, k)]: an end index below zero counts as zero, one
    beyond the end as the length. *)
Definition substring0 (s : list N) (k : Z) : list N := take (Z.to_nat k) s.

(** [limitString]. *)
Definition limitString (s : list N) (n : Z) (dotdotdot : bool) : list N :=
  if (Z.of_nat (length s) >? n)%Z then
    if dotdotdot then substring0 s (n - 1) ++ [ellipsis]
    else substring0 s n
  else s.

(** ** Sample collaborators

    Concrete backends on which the model is run in the examples below. *)

Definition info0 : patternInfo :=
  {| Pattern := "TODO"; IsRegExp := false; IsWordMatch := true;
     IsCaseSensitive := false |}.

(** Cuts a string at the first occurrence of [c]. *)
Fixpoint cut (c : ascii) (s : string) : option (string * string) :=
  match s with
  | EmptyString => None
  | String a r =>
      if Ascii.eqb a c then Some (EmptyString, r)
      else match cut c r with
           | Some (h, t) => Some (String a h, t)
           | None => None
           end
  end.

(** A parser for [repo?rev#path]. *)
Definition sample_Parse (s : string) : error + URI :=
  match cut "?"%char s with
  | Some (repo, rest) =>
      match cut "#"%char rest with
      | Some (rev, path) => inr {| Repo := repo; Rev := rev; Path := path |}
      | None => inl (ProtocolError "missing fragment")
      end
  | None => inl (ProtocolError "missing query")
  end.

Definition sample_line (n : Z) : lineMatch :=
  {| JPreview := "// TODO"; JLineNumber := n; JOffsetAndLengths := [[3; 4]%Z] |}.

(** A backend at [url]: every repository resolves to commit [c0ffee]; the
    transport fails for the repositories listed in [down]; every other
    repository has one matching line in [README.md]. *)
Definition sample_env (url : string) (down : list string) : Env :=
  {| searcherURL := url;
     NewRequest_err := fun _ => None;
     client_Do := fun req =>
       match RawQuery req !! "Repo" with
       | Some [repo] =>
           if bool_decide (repo ∈ down)
           then inl (NetworkError "connection refused")
           else inr {| StatusCode := 200; Body := inr repo |}
       | _ => inl (NetworkError "bad request")
       end;
     json_Decode := fun _ =>
       ([Some {| JPath := "README.md"; JLineMatches := [Some (sample_line 0)] |}],
        None);
     GetByURI := fun _ => inr {| ID := 1 |};
     ResolveRev := fun _ => (Some {| CommitID := "c0ffee" |}, None);
     uri_Parse := sample_Parse |}.

(** The same backend with a revision resolver that fails the way Go
    functions do: a nil result and an error. *)
Definition unresolved_env : Env :=
  {| searcherURL := "http://searcher:3181";
     NewRequest_err := fun _ => None;
     client_Do := fun _ => inr {| StatusCode := 200; Body := inr "[]" |};
     json_Decode := fun _ => ([], None);
     GetByURI := fun _ => inr {| ID := 1 |};
     ResolveRev := fun _ => (None, Some (StoreError "revision not found"));
     uri_Parse := sample_Parse |}.

(** A resolver that reports an error next to a non-nil result. *)
Definition half_resolved_env : Env :=
  {| searcherURL := "http://searcher:3181";
     NewRequest_err := fun _ => None;
     client_Do := fun _ => inr {| StatusCode := 200; Body := inr "[]" |};
     json_Decode := fun _ => ([], None);
     GetByURI := fun _ => inr {| ID := 1 |};
     ResolveRev := fun _ =>
       (Some {| CommitID := "" |}, Some (StoreError "revision not found"));
     uri_Parse := sample_Parse |}.

(** One matched file with [n] matching lines. *)
Definition sample_match (repo path : string) (n : nat) : repoMatch :=
  {| uri := {| Repo := repo; Rev := "c0ffee"; Path := path |};
     lineMatches := replicate n (Some (sample_line 0)) |}.

(** The largest line number the wire format can carry. *)
Definition last_line : lineMatch := sample_line max_int32.

Definition searcher_url : string := "http://searcher:3181".

(** A searcher that answers every request with status 503. *)
Definition overloaded_env : Env :=
  {| searcherURL := searcher_url;
     NewRequest_err := fun _ => None;
     client_Do := fun _ => inr {| StatusCode := 503; Body := inr "overloaded" |};
     json_Decode := fun _ => ([], None);
     GetByURI := fun _ => inr {| ID := 1 |};
     ResolveRev := fun _ => (Some {| CommitID := "c0ffee" |}, None);
     uri_Parse := sample_Parse |}.

(** A backend without a searcher endpoint: the store knows every
    repository and every revision resolves, and every search fails in
    [textSearch] with the configuration error, before the context or the
    network is looked at. *)
Definition unconfigured_env : Env := sample_env "" [].

(** A store that knows no repository: [GetByURI] fails for every name. *)
Definition unknown_env : Env :=
  {| searcherURL := searcher_url;
     NewRequest_err := fun _ => None;
     client_Do := fun _ => inl (NetworkError "connection refused");
     json_Decode := fun _ => ([], None);
     GetByURI := fun _ => inl (StoreError "repo not found");
     ResolveRev := fun _ => (Some {| CommitID := "c0ffee" |}, None);
     uri_Parse := sample_Parse |}.

Definition five_repos : list string := ["a"; "b"; "c"; "d"; "e"].

(** A run over [five_repos] against a backend whose searches all fail:
    the caller's context is cancelled, five workers take one repository
    each, every search fails and its worker calls [cancel()] and returns,
    the queue is closed, the five idle workers leave, the caller tests
    [ctx.Err()]. *)
Definition five_sched : list label :=
  [EnvCancel false]
    ++ (Feed <$> [0; 1; 2; 3; 4]) ++ (Check <$> [0; 1; 2; 3; 4])
    ++ (Search <$> [2; 0; 1; 3; 4])
    ++ [CloseRepos] ++ (Exit <$> [5; 6; 7; 8; 9])
    ++ [Join; CheckErr].


(** A run on one repository whose search fails, under a cancelled
    context. *)
Definition one_sched : list label :=
  [EnvCancel false; Feed 0; Check 0; Search 0; CloseRepos]
    ++ (Exit <$> [1; 2; 3; 4; 5; 6; 7; 8; 9]) ++ [Join; CheckErr].

(** A run on one repository under a context that stays alive: the
    repository is handed to worker 0, the queue is closed, the other
    workers leave. *)
Definition live_sched : list label :=
  [Feed 0; CloseRepos] ++ (Exit <$> [1; 2; 3; 4; 5; 6; 7; 8; 9]).

(** Eleven repositories, one more than there are workers. *)
Definition eleven_repos : list string :=
  ["r0"; "r1"; "r2"; "r3"; "r4"; "r5"; "r6"; "r7"; "r8"; "r9"; "r10"].

(** A run over [eleven_repos] in which ten searches fail. *)
Definition eleven_sched : list label :=
  [EnvCancel false]
    ++ (Feed <$> seq 0 10) ++ (Check <$> seq 0 10) ++ (Search <$> seq 0 10).


(** A run without repositories under a live context. *)
Definition calm_sched : list label :=
  [CloseRepos] ++ (Exit <$> seq 0 10) ++ [Join; CheckErr; Sort; Result].

(** A run over two repositories up to the point where, the search of [a]
    having failed, worker 1 holds [b] at the receive from [ctx.Done()]. *)
Definition two_sched : list label :=
  [EnvCancel false; Feed 0; Check 0; Search 0; Feed 1].

(** All the moves there are, for a pool of ten. *)
Definition all_labels : list label :=
  [EnvCancel false; EnvCancel true; CloseRepos; Join; Sort; CheckErr; Result]
    ++ (Feed <$> seq 0 10) ++ (Exit <$> seq 0 10) ++ (Check <$> seq 0 10)
    ++ (Search <$> seq 0 10) ++ (Send <$> seq 0 10).

(** No goroutine can move. *)
Definition deadlocked (E : Env) (info : patternInfo) (s : state) : bool :=
  forallb (λ l, match step E info l s with
                | None => true
                | Some _ => negb (is_internal l)
                end) all_labels.

(** What of a state the examples look at. *)
Definition view (s : state)
  : mstate * option error * option error * list wstate :=
  (main s, ctx_err s, first_failure s, workers s).

(** The [Repo] parameters of the requests sent to the searcher. *)
Definition searched_repos (evs : list event) : list (list string) :=
  omap (λ ev, match ev with
              | EvSearcher req => RawQuery req !! "Repo"
              | _ => None
              end) evs.

(** ** Vocabulary of the proofs *)

(** [s1] is not after [s2] in the byte-wise lexicographic order. *)
Definition string_le (s1 s2 : string) : Prop := String.compare s1 s2 ≠ Gt.

(** The order of the sort keys: by count, then by path. *)
Definition key_le (k1 k2 : nat * string) : Prop :=
  k1.1 < k2.1 ∨ (k1.1 = k2.1 ∧ string_le k1.2 k2.2).

Definition is_ctx_error (e : error) : Prop :=
  e = ContextCanceled ∨ e = ContextDeadlineExceeded.

Record sound (s : state) : Prop := {
  sound_ctx : ∀ e, ctx_err s = Some e → is_ctx_error e;
  sound_failure : first_failure s ≠ None → ctx_err s ≠ None;
  sound_joined :
    responses_closed (main s) = true → Forall (λ w, w = WDone) (workers s);
  sound_result : main s = MResult → first_failure s = None;
  sound_returned : ∀ rs oe, main s = MDone (rs, oe) →
    match oe with
    | Some e => rs = [] ∧ ctx_err s = Some e
    | None => first_failure s = None
    end
}.

(** A worker is parked: it has not got past the receive from [ctx.Done()]. *)
Definition is_parked (w : wstate) : bool :=
  match w with
  | WRecv | WCheck _ | WDone => true
  | WSearch _ | WSend _ => false
  end.

(** No cancellation has happened, and some repository is either still to
    be handed out or held by a worker waiting on [ctx.Done()]. *)
Record blocked (s : state) : Prop := {
  blocked_ctx : ctx_err s = None;
  blocked_workers : Forall (λ w, is_parked w = true) (workers s);
  blocked_events : events s = [];
  blocked_main :
    (∃ r rest, main s = MFeed (r :: rest))
    ∨ (((∃ rest, main s = MFeed rest) ∨ main s = MWait)
       ∧ ∃ i repo, workers s !! i = Some (WCheck repo))
}.

(** The workers waiting at [range repositories]. *)
Fixpoint idle_workers (ws : list wstate) : nat :=
  match ws with
  | [] => 0
  | WRecv :: rest => S (idle_workers rest)
  | _ :: rest => idle_workers rest
  end.

(** [searchRepo] returns an error for [repo]. *)
Definition search_fails (E : Env) (info : patternInfo) (repo : string) : Prop :=
  ∃ rs e, (searchRepo E repo info).1 = Returned (rs, Some e).

(** A worker that will not come back for another repository. *)
Definition doomed (E : Env) (info : patternInfo) (w : wstate) : Prop :=
  match w with
  | WCheck repo | WSearch repo => search_fails E info repo
  | WSend _ => False
  | WRecv | WDone => True
  end.

(** More repositories are left to hand out than workers are left to take
    them, and no worker will return to the queue. *)
Record starved (E : Env) (info : patternInfo) (s : state) : Prop := {
  starved_main :
    ∃ rest, main s = MFeed rest
            ∧ idle_workers (workers s) < length rest
            ∧ Forall (search_fails E info) rest;
  starved_workers : Forall (doomed E info) (workers s)
}.

(** The workers that have not returned. *)
Fixpoint live_workers (ws : list wstate) : nat :=
  match ws with
  | [] => 0
  | WDone :: rest => live_workers rest
  | _ :: rest => S (live_workers rest)
  end.

Definition main_rank (m : mstate) : nat :=
  match m with
  | MFeed _ => 4
  | MWait => 3
  | MCheck => 2
  | MResult => 1
  | MDone _ | MCrashed => 0
  end.

Definition acc_rank (a : astate) : nat :=
  match a with
  | ARecv _ => 2
  | ASend _ => 1
  | ADone => 0
  end.

(** A bound on the moves left to a call that has no repository to hand
    out. *)
Definition moves_left (s : state) : nat :=
  main_rank (main s) + live_workers (workers s) + acc_rank (acc s)
  + (if parent_done s then 0 else 1).

(** What a call without repositories may return: the empty sequence, or,
    when the caller's context can be cancelled, that context's error. *)
Definition empty_outcome (calm : bool) (ret : list repoMatch * option error)
  : Prop :=
  ret = ([], None)
  ∨ (calm = false ∧ ∃ e, is_ctx_error e ∧ ret = ([], Some e)).

(** The states of a call that was given no repository. *)
Record unloaded (calm : bool) (s : state) : Prop := {
  unloaded_workers : Forall (λ w, w = WRecv ∨ w = WDone) (workers s);
  unloaded_ctx : ∀ e, ctx_err s = Some e → is_ctx_error e;
  unloaded_main :
    match main s with
    | MFeed rest =>
        rest = [] ∧ acc s = ARecv [] ∧ (calm = true → ctx_err s = None)
    | MWait => acc s = ARecv [] ∧ (calm = true → ctx_err s = None)
    | MCheck =>
        (acc s = ARecv [] ∨ acc s = ASend []) ∧ (calm = true → ctx_err s = None)
    | MResult => acc s = ARecv [] ∨ acc s = ASend []
    | MDone ret => empty_outcome calm ret
    | MCrashed => False
    end
}.

(** While the context is alive every worker is parked, and a repository
    that has been handed out is still held at the receive from
    [ctx.Done()]; a result is returned only when there was nothing to hand
    out. *)
Record gated (repos : list string) (s : state) : Prop := {
  gated_open :
    ctx_err s = None →
    Forall (λ w, is_parked w = true) (workers s)
    ∧ (repos = [] ∨ main s = MFeed repos
       ∨ ∃ i repo, workers s !! i = Some (WCheck repo));
  gated_result :
    main s = MResult ∨ (∃ rs, main s = MDone (rs, None)) → repos = []
}.

(** The request [textSearch] sends for a repository at a commit. *)
Definition searcher_request (E : Env) (repo commit : string) (p : patternInfo)
  : Request :=
  {| Method := "GET"; URL := searcherURL E; RawQuery := query repo commit p |}.

(** The query a caller of the wire protocol expects: the three mandatory
    parameters, and each flag exactly when it is set. *)
Definition expected_parameter (repo commit : string) (p : patternInfo)
    (k : string) : option (list string) :=
  if decide (k = "Repo") then Some [repo]
  else if decide (k = "Commit") then Some [commit]
  else if decide (k = "Pattern") then Some [Pattern p]
  else if decide (k = "IsRegExp") then
    (if IsRegExp p then Some ["true"] else None)
  else if decide (k = "IsWordMatch") then
    (if IsWordMatch p then Some ["true"] else None)
  else if decide (k = "IsCaseSensitive") then
    (if IsCaseSensitive p then Some ["true"] else None)
  else None.

(** The match [searchRepo] makes of one decoded file match. *)
Definition match_of (E : Env) (repoName commitID : string) (rm : repoMatch)
    (ofm : ptr fileMatch) : Prop :=
  ∃ fm, ofm = Some fm
        ∧ lineMatches rm = JLineMatches fm
        ∧ uri_Parse E (repoName +:+ "?" +:+ commitID +:+ "#" +:+ JPath fm)
          = inr (uri rm).

(** The file match is there and its URI parses. *)
Definition parses (E : Env) (repoName commitID : string)
    (ofm : ptr fileMatch) : Prop :=
  ∃ fm u, ofm = Some fm
          ∧ uri_Parse E (repoName +:+ "?" +:+ commitID +:+ "#" +:+ JPath fm)
            = inr u.

(** The repository a worker holds and has not yet handed to [searchRepo]
    to the end. *)
Definition hold (w : wstate) : list string :=
  match w with
  | WCheck repo | WSearch repo => [repo]
  | WRecv | WSend _ | WDone => []
  end.

(** The repositories the workers of the pool hold. *)
Fixpoint held (ws : list wstate) : list string :=
  match ws with
  | [] => []
  | w :: rest => hold w ++ held rest
  end.

(** The repositories the caller has still to send. *)
Definition remaining (m : mstate) : list string :=
  match m with
  | MFeed rest => rest
  | _ => []
  end.

(** The names [localstore.Repos.GetByURI] was asked for, in order. *)
Definition looked_up (evs : list event) : list string :=
  omap (λ ev, match ev with
              | EvGetByURI name => Some name
              | _ => None
              end) evs.

(** The moves a worker has left at most before it returns, if it is given
    nothing more to do. *)
Definition rank (w : wstate) : nat :=
  match w with
  | WCheck _ => 4
  | WSearch _ => 3
  | WSend _ => 2
  | WRecv => 1
  | WDone => 0
  end.

(** A bound on the moves left to a call. *)
Definition moves_bound (s : state) : nat :=
  match main s with
  | MCrashed => 0
  | m =>
      5 * length (remaining m) + main_rank m
      + sum_list_with rank (workers s) + acc_rank (acc s)
      + (if parent_done s then 0 else 1)
  end.

(** [searchRepo] returns an error for the repository. *)
Definition fails (E : Env) (info : patternInfo) (repo : string) : bool :=
  match (searchRepo E repo info).1 with
  | Returned (_, Some _) => true
  | _ => false
  end.

(** [searchRepo] panics for the repository. *)
Definition panics (E : Env) (info : patternInfo) (repo : string) : bool :=
  match (searchRepo E repo info).1 with
  | Panicked => true
  | Returned _ => false
  end.

(** What a repository adds to the count of searches that will fail. *)
Definition failure_of (E : Env) (info : patternInfo) (repo : string) : nat :=
  if fails E info repo then 1 else 0.

(** How many of the repositories have a search that fails. *)
Definition failures (E : Env) (info : patternInfo) (repos : list string) : nat :=
  sum_list_with (failure_of E info) repos.

(** The worker waits at [range repositories]. *)
Definition is_idle (w : wstate) : nat :=
  match w with WRecv => 1 | _ => 0 end.

(** The worker has not returned. *)
Definition is_live (w : wstate) : nat :=
  match w with WDone => 0 | _ => 1 end.

(** The pool cannot die before the queue is empty: there are as many idle
    workers as repositories left to send, or more live workers than
    searches left that will fail. *)
Definition room (E : Env) (info : patternInfo) (s : state) : Prop :=
  (length (remaining (main s)) ≤ sum_list_with is_idle (workers s))%nat
  ∨ (failures E info (remaining (main s))
     + sum_list_with (λ w, failures E info (hold w)) (workers s)
     < sum_list_with is_live (workers s))%nat.

(** The states of a call whose pool cannot die: while the queue is open
    the accumulator is receiving, and no goroutine has panicked. *)
Record supplied (E : Env) (info : patternInfo) (s : state) : Prop := {
  supplied_room : room E info s;
  supplied_acc :
    match main s with
    | MFeed _ | MWait => ∃ received, acc s = ARecv received
    | MCrashed => False
    | _ => True
    end
}.

(** The pool has its ten workers, and the accumulator has returned exactly
    when the caller has returned a sequence. *)
Record tidy (s : state) : Prop := {
  tidy_length : length (workers s) = nworkers;
  tidy_result : ∀ rs, main s = MDone (rs, None) → acc s = ADone;
  tidy_acc : acc s = ADone → ∃ rs, main s = MDone (rs, None)
}.

(** Before the caller's context is cancelled nothing has been looked up,
    resolved or searched, and a context cancelled by [SearchRepos] itself
    finds the workers joined. *)
Record patient (s : state) : Prop := {
  patient_events : parent_done s = false → events s = [];
  patient_failure : parent_done s = false → first_failure s = None;
  patient_workers :
    parent_done s = false → Forall (λ w, is_parked w = true) (workers s);
  patient_ctx :
    parent_done s = false →
    ctx_err s = None ∨ responses_closed (main s) = true;
  patient_cancelled : parent_done s = true → ctx_err s ≠ None
}.

(** As long as no goroutine has panicked, every repository of the list is,
    once, still to be sent, held by a worker, or looked up. *)
Definition accounted (repos : list string) (s : state) : Prop :=
  main s ≠ MCrashed →
  remaining (main s) ++ held (workers s) ++ looked_up (events s) ≡ₚ repos.

(** * Properties *)

(** ** Line numbers *)

Lemma wrap32_id (z : Z) : in_int32 z → wrap32 z = z.
Proof.
  unfold in_int32, min_int32, max_int32, wrap32. intros Hz.
  rewrite Z.mod_small by lia. lia.
Qed.

Lemma wrap32_range (z : Z) : in_int32 (wrap32 z).
Proof.
  unfold in_int32, min_int32, max_int32, wrap32.
  pose proof (Z.mod_pos_bound (z + 2 ^ 31) (2 ^ 32) ltac:(lia)). lia.
Qed.

(** ** The searcher client *)

Lemma textSearch_events (E : Env) (repo commit : string) (p : patternInfo) :
  ∀ ev, ev ∈ (textSearch E repo commit p).2 →
        ∃ req, ev = EvSearcher req ∧ URL req = searcherURL E ∧ Method req = "GET".
Proof.
  intros ev. unfold textSearch.
  repeat (case_match; simpl); intros Hev;
    try (by apply elem_of_nil in Hev);
    apply list_elem_of_singleton in Hev; subst; eauto.
Qed.

(** A request goes out only after the endpoint has been found configured. *)
Lemma textSearch_request_configured (E : Env) (repo commit : string)
    (p : patternInfo) :
  (textSearch E repo commit p).2 ≠ [] → searcherURL E ≠ "".
Proof.
  unfold textSearch. destruct (String.eqb_spec (searcherURL E) ""); simpl; congruence.
Qed.

(** ** Searching one repository *)

(** The line matches of a match are those of the decoded file, untouched. *)
Lemma repoMatches_of_lineMatches (E : Env) (repoName commitID : string)
    (fms : list (ptr fileMatch)) (rms : list repoMatch) (err : option error) :
  repoMatches_of E repoName commitID fms = Returned (rms, err) →
  ∀ rm, rm ∈ rms → ∃ fm, Some fm ∈ fms ∧ lineMatches rm = JLineMatches fm.
Proof.
  revert rms err. induction fms as [|[fm|] fms IH]; simpl; intros rms err Hr rm Hin.
  - inversion Hr; subst. by apply elem_of_nil in Hin.
  - destruct (uri_Parse E _) as [e|u].
    + inversion Hr; subst. by apply elem_of_nil in Hin.
    + destruct (repoMatches_of E repoName commitID fms) as [[rms' [e'|]]|] eqn:Hrest;
        inversion Hr; subst.
      * destruct (IH _ _ eq_refl rm Hin) as (fm' & Hfm' & Heq).
        exists fm'. split; [by right|done].
      * apply elem_of_cons in Hin as [->|Hin].
        -- exists fm. split; [left|done].
        -- destruct (IH _ _ eq_refl rm Hin) as (fm' & Hfm' & Heq).
           exists fm'. split; [by right|done].
  - discriminate.
Qed.

(** [searchRepo] with a resolver that returns a nil commit panics. *)
Lemma searchRepo_nil_commit (E : Env) (repoName : string) (info : patternInfo)
    (repo : RepoRecord) (err : option error) :
  GetByURI E repoName = inr repo →
  ResolveRev E (ID repo) = (None, err) →
  searchRepo E repoName info
  = (Panicked, [EvGetByURI repoName; EvResolveRev (ID repo)]).
Proof. intros Hg Hr. unfold searchRepo. by rewrite Hg, Hr. Qed.

(** With a non-nil commit the searcher is consulted whatever the resolver's
    error was. *)
Lemma searchRepo_ignores_resolve_error (E : Env) (repoName : string)
    (info : patternInfo) (repo : RepoRecord) (commit : ResolvedRev)
    (err : option error) :
  GetByURI E repoName = inr repo →
  ResolveRev E (ID repo) = (Some commit, err) →
  (searchRepo E repoName info).2 =
    [EvGetByURI repoName; EvResolveRev (ID repo)]
      ++ (textSearch E repoName (CommitID commit) info).2.
Proof.
  intros Hg Hr. unfold searchRepo. rewrite Hg, Hr.
  destruct (textSearch E repoName (CommitID commit) info) as [[fms [e|]] net]; done.
Qed.

Lemma searchRepo_searcher_events (E : Env) (repoName : string)
    (info : patternInfo) (req : Request) :
  EvSearcher req ∈ (searchRepo E repoName info).2 → searcherURL E ≠ "".
Proof.
  unfold searchRepo.
  destruct (GetByURI E repoName) as [e|repo]; simpl.
  { intros Hin. apply list_elem_of_singleton in Hin. discriminate. }
  destruct (ResolveRev E (ID repo)) as [[commit|] err]; simpl.
  2:{ intros Hin. repeat (apply elem_of_cons in Hin as [Hin|Hin]; [discriminate|]).
      by apply elem_of_nil in Hin. }
  pose proof (textSearch_request_configured E repoName (CommitID commit) info) as Hc.
  destruct (textSearch E repoName (CommitID commit) info) as [[fms [e|]] net];
    simpl in *; intros Hin;
    repeat (apply elem_of_cons in Hin as [Hin|Hin]; [discriminate|]);
    apply Hc; intros ->; by apply elem_of_nil in Hin.
Qed.

(** ** Ordering of strings *)

Lemma string_compare_refl (s : string) : String.compare s s = Eq.
Proof.
  induction s as [|a s IH]; simpl; [done|].
  unfold Ascii.compare. by rewrite N.compare_refl.
Qed.

Lemma string_compare_lt_trans (s1 s2 s3 : string) :
  String.compare s1 s2 = Lt → String.compare s2 s3 = Lt →
  String.compare s1 s3 = Lt.
Proof.
  revert s2 s3. induction s1 as [|a s1 IH]; intros [|b s2] [|c s3]; simpl; try done.
  unfold Ascii.compare.
  destruct (N.compare_spec (N_of_ascii a) (N_of_ascii b)) as [Hab|Hab|Hab];
    destruct (N.compare_spec (N_of_ascii b) (N_of_ascii c)) as [Hbc|Hbc|Hbc];
    try done; intros H1 H2.
  - rewrite Hab, Hbc, N.compare_refl. eauto.
  - rewrite Hab. by rewrite (proj2 (N.compare_lt_iff _ _) Hbc).
  - rewrite <- Hbc. by rewrite (proj2 (N.compare_lt_iff _ _) Hab).
  - by rewrite (proj2 (N.compare_lt_iff _ _) (N.lt_trans _ _ _ Hab Hbc)).
Qed.

Lemma string_compare_gt_lt (s1 s2 : string) :
  String.compare s1 s2 = Gt ↔ String.compare s2 s1 = Lt.
Proof.
  rewrite (String.compare_antisym s2 s1).
  destruct (String.compare s1 s2); simpl; split; congruence.
Qed.

Lemma string_le_trans (s1 s2 s3 : string) :
  string_le s1 s2 → string_le s2 s3 → string_le s1 s3.
Proof.
  unfold string_le. intros H12 H23.
  destruct (String.compare s1 s2) eqn:E12; [| |done].
  { apply String.compare_eq_iff in E12. by subst. }
  destruct (String.compare s2 s3) eqn:E23; [| |done].
  { apply String.compare_eq_iff in E23. subst. by rewrite E12. }
  by rewrite (string_compare_lt_trans _ _ _ E12 E23).
Qed.

(** ** The comparison of [accumulate] *)

Lemma less_spec (a b : repoMatch) :
  less a b = true ↔
    length (lineMatches a) < length (lineMatches b)
    ∨ (length (lineMatches a) = length (lineMatches b)
       ∧ String.compare (Path (uri a)) (Path (uri b)) = Lt).
Proof.
  unfold less.
  destruct (Nat.eqb_spec (length (lineMatches a)) (length (lineMatches b))) as [Heq|Hne];
    simpl.
  - destruct (String.compare _ _); split; intros H; try done;
      try (by right); destruct H as [?|[_ ?]]; lia || done.
  - rewrite Nat.ltb_lt. split; [by left|]. intros [?|[? _]]; [done|lia].
Qed.

Lemma may_precede_spec (a b : repoMatch) :
  may_precede a b ↔
    length (lineMatches a) < length (lineMatches b)
    ∨ (length (lineMatches a) = length (lineMatches b)
       ∧ string_le (Path (uri a)) (Path (uri b))).
Proof.
  unfold may_precede, not_after, string_le. rewrite string_compare_gt_lt.
  destruct (less b a) eqn:Hl.
  - apply less_spec in Hl. split; [done|]. intros [?|[? ?]]; [lia|].
    destruct Hl as [?|[_ ?]]; [lia|done].
  - split; [intros _|done].
    destruct (lt_eq_lt_dec (length (lineMatches a)) (length (lineMatches b)))
      as [[?|Heq]|Hgt].
    + by left.
    + right. split; [done|]. intros Hlt.
      assert (less b a = true) by (apply less_spec; right; by split).
      congruence.
    + assert (less b a = true) by (apply less_spec; by left). congruence.
Qed.

Lemma less_asym (a b : repoMatch) : less a b = true → less b a = false.
Proof.
  intros Hab. destruct (less b a) eqn:Hba; [|done].
  apply less_spec in Hab, Hba.
  destruct Hab as [?|[? Hab]], Hba as [?|[? Hba]]; try lia.
  apply string_compare_gt_lt in Hba. congruence.
Qed.

Lemma may_precede_trans (a b c : repoMatch) :
  may_precede a b → may_precede b c → may_precede a c.
Proof.
  rewrite !may_precede_spec. intros [?|[? Hab]] [?|[? Hbc]]; try (left; lia).
  right. split; [lia|]. by apply string_le_trans with (Path (uri b)).
Qed.

(** Two entries that may stand in either order have the same keys. *)
Lemma may_precede_antisym (a b : repoMatch) :
  may_precede a b → may_precede b a → sort_key a = sort_key b.
Proof.
  rewrite !may_precede_spec. unfold sort_key, string_le.
  intros [?|[Hlen Hab]] [?|[? Hba]]; try (exfalso; lia).
  rewrite Hlen. f_equal.
  destruct (String.compare (Path (uri a)) (Path (uri b))) eqn:Hc; [| |done].
  - by apply String.compare_eq_iff.
  - apply string_compare_gt_lt in Hc. done.
Qed.

(** ** [sort.Slice] *)

Section insertion_sort.
Context {A : Type} (lt : A → A → bool).

Hypothesis lt_asym : ∀ x y, lt x y = true → lt y x = false.
Hypothesis ok_trans :
  ∀ x y z, not_after lt x y → not_after lt y z → not_after lt x z.

Lemma sift_Permutation (x : A) (before : list A) :
  sift lt x before ≡ₚ x :: before.
Proof.
  induction before as [|y r IH]; simpl; [done|].
  destruct (lt x y); [|done]. rewrite IH. apply Permutation_swap.
Qed.

Lemma sift_sorted (x : A) (before : list A) :
  StronglySorted (flip (not_after lt)) before →
  StronglySorted (flip (not_after lt)) (sift lt x before).
Proof using lt_asym ok_trans.
  induction 1 as [|y r Hr IH Hy]; simpl.
  { repeat constructor. }
  destruct (lt x y) eqn:Hxy.
  - constructor; [done|].
    rewrite sift_Permutation. constructor; [|done].
    unfold flip, not_after. by apply lt_asym.
  - constructor; [by constructor|].
    constructor; [done|].
    eapply Forall_impl; [exact Hy|]. unfold flip. intros z Hz.
    by apply ok_trans with y.
Qed.

Lemma insertion_loop_Permutation (data before : list A) :
  fold_left (fun before x => sift lt x before) data before ≡ₚ data ++ before.
Proof.
  revert before. induction data as [|x data IH]; intros before; simpl; [done|].
  rewrite IH, sift_Permutation. by rewrite Permutation_middle.
Qed.

Lemma insertion_loop_sorted (data before : list A) :
  StronglySorted (flip (not_after lt)) before →
  StronglySorted (flip (not_after lt))
    (fold_left (fun before x => sift lt x before) data before).
Proof using lt_asym ok_trans.
  revert before. induction data as [|x data IH]; intros before Hb; simpl; [done|].
  by apply IH, sift_sorted.
Qed.

Lemma StronglySorted_rev (l : list A) :
  StronglySorted (flip (not_after lt)) l → StronglySorted (not_after lt) (rev l).
Proof.
  induction 1 as [|x l Hl IH Hx]; simpl; [constructor|].
  apply StronglySorted_app_2; [|done|repeat constructor].
  intros y z Hy Hz. apply list_elem_of_singleton in Hz as ->.
  rewrite Forall_forall in Hx. apply Hx.
  by apply list_elem_of_In, in_rev, list_elem_of_In.
Qed.

(** [sort.Slice] rearranges the slice ... *)
Lemma sort_Slice_Permutation (data : list A) : sort_Slice lt data ≡ₚ data.
Proof.
  unfold sort_Slice. rewrite <- Permutation_rev, insertion_loop_Permutation.
  by rewrite app_nil_r.
Qed.

(** ... and leaves it sorted. *)
Lemma sort_Slice_sorted (data : list A) :
  StronglySorted (not_after lt) (sort_Slice lt data).
Proof using lt_asym ok_trans.
  unfold sort_Slice. apply StronglySorted_rev, insertion_loop_sorted. constructor.
Qed.
End insertion_sort.

(** In a sorted list an earlier entry may precede every later one. *)
Lemma StronglySorted_lookup {A : Type} (R : relation A) (l : list A)
    (i j : nat) (a b : A) :
  StronglySorted R l → i < j → l !! i = Some a → l !! j = Some b → R a b.
Proof.
  intros Hs. revert i j. induction Hs as [|x l Hl IH Hx]; intros i j Hij Hi Hj.
  { done. }
  destruct j as [|j]; [lia|]. destruct i as [|i]; simpl in *.
  - inversion Hi; subst. rewrite Forall_forall in Hx.
    apply Hx. by eapply list_elem_of_lookup_2.
  - apply (IH i j); [lia|done..].
Qed.

Lemma accumulate_Permutation (responses : list (list repoMatch)) :
  accumulate responses ≡ₚ concat responses.
Proof. apply sort_Slice_Permutation. Qed.

Lemma accumulate_sorted (responses : list (list repoMatch)) :
  StronglySorted may_precede (accumulate responses).
Proof.
  apply (sort_Slice_sorted less); [apply less_asym|].
  intros x y z. apply may_precede_trans.
Qed.

(** A permutation whose keys stand in the same order and are all different
    is the same list. *)
Lemma Permutation_same_keys {A K : Type} (key : A → K) (l1 l2 : list A) :
  l1 ≡ₚ l2 → key <$> l1 = key <$> l2 → NoDup (key <$> l1) → l1 = l2.
Proof.
  revert l2. induction l1 as [|a l1 IH]; intros [|b l2] Hp Hk Hn; try done.
  csimpl in *. injection Hk as Hab Hrest.
  apply NoDup_cons in Hn as [Hnot Hn].
  assert (a = b) as ->.
  { assert (a ∈ b :: l2) as Hin by (rewrite <- Hp; left).
    apply elem_of_cons in Hin as [?|Hin]; [done|].
    exfalso. apply Hnot. rewrite Hrest. by apply list_elem_of_fmap_2. }
  f_equal. apply IH; [|done..]. by apply (inj (b ::.)).
Qed.

Lemma may_precede_key_le (a b : repoMatch) :
  may_precede a b → key_le (sort_key a) (sort_key b).
Proof. by rewrite may_precede_spec. Qed.

Lemma key_le_antisym (k1 k2 : nat * string) :
  key_le k1 k2 → key_le k2 k1 → k1 = k2.
Proof.
  destruct k1 as [n1 p1], k2 as [n2 p2]. unfold key_le, string_le; simpl.
  intros [?|[? H12]] [?|[? H21]]; try (exfalso; lia).
  subst n2. f_equal. destruct (String.compare p1 p2) eqn:Hc; [| |congruence].
  - by apply String.compare_eq_iff.
  - apply string_compare_gt_lt in Hc. congruence.
Qed.

Lemma concat_Permutation {A : Type} (l1 l2 : list (list A)) :
  l1 ≡ₚ l2 → concat l1 ≡ₚ concat l2.
Proof.
  induction 1 as [|x l1 l2 _ IH|x y l|l1 l2 l3 _ IH1 _ IH2]; simpl.
  - done.
  - by rewrite IH.
  - rewrite !app_assoc. by rewrite (Permutation_app_comm y x).
  - by rewrite IH1.
Qed.

(** ** The orchestrator: what holds in every state *)

Lemma cancel_with_Some (e : error) (c : option error) :
  cancel_with e c ≠ None.
Proof. by destruct c. Qed.

Lemma cancel_with_ctx (e : error) (c : option error) :
  is_ctx_error e → (∀ e0, c = Some e0 → is_ctx_error e0) →
  ∀ e1, cancel_with e c = Some e1 → is_ctx_error e1.
Proof. destruct c; simpl; intros He Hc e1 [= <-]; eauto. Qed.

Lemma all_done_lookup (ws : list wstate) (i : nat) (w : wstate) :
  Forall (λ w, w = WDone) ws → ws !! i = Some w → w = WDone.
Proof. intros Hall Hi. by apply (Forall_lookup_1 _ _ _ _ Hall Hi). Qed.

Lemma forallb_is_done (ws : list wstate) :
  forallb is_done ws = true ↔ Forall (λ w, w = WDone) ws.
Proof.
  rewrite forallb_forall, Forall_forall. split; intros H w Hw.
  - apply list_elem_of_In in Hw. specialize (H w Hw). by destruct w.
  - apply list_elem_of_In in Hw. by rewrite (H w Hw).
Qed.

(** Case analysis on an enabled move. *)
Ltac step_cases H :=
  unfold step in H; simpl in H;
  repeat (case_match; try discriminate);
  simplify_eq;
  try match goal with
      | Hok : recv_Done ?c = Some true |- _ => by destruct c
      end.

Ltac not_all_done :=
  match goal with
  | Hall : Forall (λ w, w = WDone) ?ws,
    Hi : ?ws !! _ = Some _ |- _ =>
      pose proof (all_done_lookup _ _ _ Hall Hi); discriminate
  end.

Lemma sound_init (repos : list string) : sound (init repos).
Proof. split; simpl; try done. Qed.

Lemma step_sound (E : Env) (info : patternInfo) (l : label) (s s' : state) :
  sound s → step E info l s = Some s' → sound s'.
Proof.
  destruct s as [c p m ws a ff ev].
  intros [Hc Hf Hj Hr Hd] Hstep; simpl in *.
  step_cases Hstep.
  all: split; simpl in *; try done.
  all: try (intros Hcl; specialize (Hj Hcl); not_all_done).
  all: try (specialize (Hj eq_refl); intros; not_all_done).
  all: try (by apply cancel_with_ctx; [destruct deadline; [right|left]|]).
  all: try (by apply cancel_with_ctx; [left|]).
  all: try (intros; by apply cancel_with_Some).
  - intros _. by apply forallb_is_done.
  - intros rs oe [= <- <-]. done.
  - intros e [= <-]. by left.
  - intros _. destruct ff; [|done]. by destruct Hf.
  - intros rs oe [= <- <-]. by apply Hr.
  - intros rs [e|] Heq; specialize (Hd _ _ Heq); simpl in *; [|done].
    destruct Hd as [-> ->]. done.
Qed.

Lemma exec_sound (E : Env) (info : patternInfo) (sched : list label)
    (s s' : state) :
  sound s → exec E info sched s = Some s' → sound s'.
Proof.
  revert s. induction sched as [|l sched IH]; simpl; intros s Hs Hx.
  { by simplify_eq. }
  destruct (step E info l s) as [s1|] eqn:Hstep; [|done].
  eauto using step_sound.
Qed.

(** ** The orchestrator: a failed search *)

Lemma parked_lookup (ws : list wstate) (i : nat) (w : wstate) :
  Forall (λ w, is_parked w = true) ws → ws !! i = Some w → is_parked w = true.
Proof. intros Hall Hi. by apply (Forall_lookup_1 _ _ _ _ Hall Hi). Qed.

Lemma waiting_insert (ws : list wstate) (i : nat) (w w' : wstate) :
  ws !! i = Some w → (∀ r, w ≠ WCheck r) →
  (∃ j repo, ws !! j = Some (WCheck repo)) →
  ∃ j repo, <[i := w']> ws !! j = Some (WCheck repo).
Proof.
  intros Hi Hw (j & repo & Hj). exists j, repo.
  rewrite list_lookup_insert_ne; [done|]. intros ->.
  rewrite Hi in Hj. injection Hj as ->. by apply (Hw repo).
Qed.

Lemma blocked_init (r : string) (rest : list string) : blocked (init (r :: rest)).
Proof.
  split; simpl; try done.
  - unfold nworkers. repeat constructor.
  - left. eauto.
Qed.

Lemma step_blocked (E : Env) (info : patternInfo) (l : label) (s s' : state) :
  blocked s → is_internal l = true → step E info l s = Some s' → blocked s'.
Proof.
  destruct s as [c p m ws a ff ev].
  intros [Hc Hw He Hm] Hl Hstep; simpl in *. subst c ev.
  step_cases Hstep; simpl in *; try done.
  all: try (match goal with
            | Hi : _ !! _ = Some _ |- _ =>
                pose proof (parked_lookup _ _ _ Hw Hi); discriminate
            end).
  all: try (destruct Hm as [(? & ? & ?)|[[(? & ?)|?] ?]]; discriminate).
  all: split; simpl; try done; try (by apply Forall_insert).
  - (* Feed *)
    right. split; [left; eauto|].
    match goal with
    | Hi : _ !! ?i = Some WRecv |- _ =>
        exists i; eexists; apply list_lookup_insert_eq; by eapply lookup_lt_Some
    end.
  - (* CloseRepos *)
    destruct Hm as [(? & ? & ?)|[_ Hwait]]; [discriminate|].
    right. split; [by right|done].
  - (* Exit on an open channel never happens; on a closed one: *)
    destruct Hm as [(? & ? & ?)|[_ Hwait]]; [discriminate|].
    right. split; [by right|]. eapply waiting_insert; eauto; congruence.
  - (* Join *)
    destruct Hm as [(? & ? & ?)|[_ (j & repo & Hj)]]; [discriminate|].
    match goal with
    | Hd : forallb is_done _ = true |- _ =>
        apply forallb_is_done in Hd;
        pose proof (all_done_lookup _ _ _ Hd Hj); discriminate
    end.
Qed.

Lemma exec_blocked (E : Env) (info : patternInfo) (sched : list label)
    (s s' : state) :
  blocked s → quiet sched = true → exec E info sched s = Some s' → blocked s'.
Proof.
  revert s. induction sched as [|l sched IH]; simpl; intros s Hs Hq Hx.
  { by simplify_eq. }
  apply andb_true_iff in Hq as [Hl Hq].
  destruct (step E info l s) as [s1|] eqn:Hstep; [|done].
  eauto using step_blocked.
Qed.

(** ** The orchestrator: a pool that dies *)

Lemma idle_workers_take (ws : list wstate) (i : nat) (w : wstate) :
  ws !! i = Some WRecv → w ≠ WRecv →
  S (idle_workers (<[i := w]> ws)) = idle_workers ws.
Proof.
  revert i. induction ws as [|w0 ws IH]; intros [|i] Hi Hw; simpl in *; try done.
  - injection Hi as ->. by destruct w.
  - destruct w0; simpl; rewrite <- (IH i Hi Hw); done.
Qed.

Lemma idle_workers_keep (ws : list wstate) (i : nat) (w0 w : wstate) :
  ws !! i = Some w0 → w0 ≠ WRecv → w ≠ WRecv →
  idle_workers (<[i := w]> ws) = idle_workers ws.
Proof.
  revert i. induction ws as [|w1 ws IH]; intros [|i] Hi Hw0 Hw; simpl in *; try done.
  - injection Hi as ->. by destruct w, w0.
  - destruct w1; simpl; rewrite (IH i Hi Hw0 Hw); done.
Qed.

Lemma idle_workers_replicate (n : nat) : idle_workers (replicate n WRecv) = n.
Proof. induction n as [|n IH]; simpl; congruence. Qed.

Lemma doomed_lookup (E : Env) (info : patternInfo) (ws : list wstate)
    (i : nat) (w : wstate) :
  Forall (doomed E info) ws → ws !! i = Some w → doomed E info w.
Proof. intros Hall Hi. by apply (Forall_lookup_1 _ _ _ _ Hall Hi). Qed.

Lemma starved_init (E : Env) (info : patternInfo) (repos : list string) :
  nworkers < length repos → Forall (search_fails E info) repos →
  starved E info (init repos).
Proof.
  intros Hlen Hfail. split.
  - exists repos. split; [done|]. split; [|done].
    change (idle_workers (replicate nworkers WRecv) < length repos).
    by rewrite idle_workers_replicate.
  - apply Forall_replicate. done.
Qed.

Lemma step_starved (E : Env) (info : patternInfo) (l : label) (s s' : state) :
  starved E info s → step E info l s = Some s' → starved E info s'.
Proof.
  destruct s as [c p m ws a ff ev].
  intros [(rest & Hm & Hlen & Hrest) Hw] Hstep; simpl in *. subst m.
  step_cases Hstep; simpl in *.
  all: try (match goal with
            | Hi : _ !! _ = Some _ |- _ =>
                pose proof (doomed_lookup _ _ _ _ _ Hw Hi) as Hdoom; simpl in Hdoom
            end).
  all: try done.
  all: try (simpl in Hlen; lia).
  - (* EnvCancel *) split; simpl; eauto.
  - (* Feed *)
    apply Forall_cons in Hrest as [Hs Hrest].
    split; simpl; [|by apply Forall_insert].
    eexists; split; [done|]. split; [|done]. simpl in Hlen.
    match goal with
    | Hi : _ !! _ = Some WRecv |- _ =>
        pose proof (idle_workers_take _ _ (WCheck s) Hi ltac:(done))
    end. lia.
  - (* Check *)
    split; simpl; [|by apply Forall_insert].
    eexists; split; [done|]. split; [|done].
    erewrite idle_workers_keep; eauto; done.
  - (* Search: failure *)
    split; simpl; [|by apply Forall_insert].
    eexists; split; [done|]. split; [|done].
    erewrite idle_workers_keep; eauto; done.
  - (* Search: success is excluded *)
    destruct Hdoom as (rs & e & Hfail).
    match goal with Hs : searchRepo _ _ _ = _ |- _ => rewrite Hs in Hfail end.
    discriminate.
  - (* Search: panic is excluded *)
    destruct Hdoom as (rs & e & Hfail).
    match goal with Hs : searchRepo _ _ _ = _ |- _ => rewrite Hs in Hfail end.
    discriminate.
Qed.

Lemma exec_starved (E : Env) (info : patternInfo) (sched : list label)
    (s s' : state) :
  starved E info s → exec E info sched s = Some s' → starved E info s'.
Proof.
  revert s. induction sched as [|l sched IH]; simpl; intros s Hs Hx.
  { by simplify_eq. }
  destruct (step E info l s) as [s1|] eqn:Hstep; [|done].
  eauto using step_starved.
Qed.

(** ** The orchestrator: no repositories *)

Lemma unloaded_lookup (ws : list wstate) (i : nat) (w : wstate) :
  Forall (λ w, w = WRecv ∨ w = WDone) ws → ws !! i = Some w →
  w = WRecv ∨ w = WDone.
Proof. intros Hall Hi. by apply (Forall_lookup_1 _ _ _ _ Hall Hi). Qed.

Lemma live_workers_exit (ws : list wstate) (i : nat) :
  ws !! i = Some WRecv → S (live_workers (<[i := WDone]> ws)) = live_workers ws.
Proof.
  revert i. induction ws as [|w ws IH]; intros [|i] Hi; simpl in *; try done.
  - by injection Hi as ->.
  - destruct w; simpl; rewrite <- (IH i Hi); done.
Qed.


Lemma unloaded_init (calm : bool) : unloaded calm (init []).
Proof.
  split; simpl; try done.
  unfold nworkers. repeat constructor; by left.
Qed.

Lemma step_unloaded (E : Env) (info : patternInfo) (calm : bool) (l : label)
    (s s' : state) :
  unloaded calm s → allowed calm l = true → step E info l s = Some s' →
  unloaded calm s' ∧ moves_left s' < moves_left s.
Proof.
  destruct s as [c p m ws a ff ev].
  intros [Hw Hc Hm] Hl Hstep; simpl in *. unfold moves_left, empty_outcome in *.
  step_cases Hstep; simpl in *.
  all: try (match goal with
            | Hi : _ !! _ = Some _ |- _ =>
                by destruct (unloaded_lookup _ _ _ Hw Hi)
            end).
  all: try (destruct calm; [discriminate|]).
  all: try (by destruct Hm as [? _]).
  all: (split; [split; simpl|simpl]).
  all: try (match goal with
            | Hi : _ !! _ = Some WRecv |- _ =>
                pose proof (live_workers_exit _ _ Hi); lia
            end).
  all: try lia.
  all: try done.
  all: try (by apply Forall_insert; [|right]).
  all: try (by apply cancel_with_ctx; [destruct deadline; [right|left]|]).
  all: try (by apply cancel_with_ctx; [left|]).
  all: try (intuition congruence).
  all: try (intros e0 [= <-]; by left).
  all: try (destruct Hm as [[[= ->]|?] ?]; [|done]; split; [by right|done]).
  all: try (destruct Hm as [[= ->]|?]; [|done]; by right).
  all: try (destruct Hm as [?|[= ->]]; [done|]; by left).
  all: destruct Hm as [_ Hm]; destruct calm; [by specialize (Hm eq_refl)|];
    right; split; [done|]; eauto.
Qed.




(** ** The orchestrator: the receive from [ctx.Done()] *)

Lemma gated_init (repos : list string) : gated repos (init repos).
Proof.
  split; simpl.
  - intros _. split; [|by right; left]. unfold nworkers. repeat constructor.
  - intros [?|[? ?]]; discriminate.
Qed.

Lemma step_gated (E : Env) (info : patternInfo) (repos : list string)
    (l : label) (s s' : state) :
  sound s → gated repos s → step E info l s = Some s' → gated repos s'.
Proof.
  destruct s as [c p m ws a ff ev].
  intros [_ _ Hj _ _] [Ho Hr] Hstep; simpl in *.
  step_cases Hstep; simpl in *.
  all: split; simpl.
  all: try (intros; discriminate).
  all: try (intros [?|[? ?]]; discriminate).
  all: try (by destruct c).
  all: try (intros Hres; by apply Hr).
  all: try (intros Hres; apply Hr; by left).
  all: try (intros Hn; specialize (Ho Hn) as [Hpark Hopen]).
  all: try (match goal with
            | Hi : _ !! _ = Some _ |- _ =>
                pose proof (parked_lookup _ _ _ Hpark Hi); discriminate
            end).
  all: try (split; [by apply Forall_insert|]).
  all: try (split; [done|]).
  all: try (destruct Hopen as [?|[?|Hwait]]; [by left|discriminate|];
            right; right; done).
  all: try (destruct Hopen as [?|[?|Hwait]]; [by left|discriminate|];
            right; right; eapply waiting_insert; eauto; congruence).
  - (* Feed *)
    right; right.
    match goal with
    | Hi : _ !! ?i = Some WRecv |- _ =>
        exists i; eexists; apply list_lookup_insert_eq; by eapply lookup_lt_Some
    end.
  - (* CloseRepos *)
    destruct Hopen as [?|[[= <-]|Hwait]]; [by left|by left|]. right; right; done.
  - (* CheckErr on a live context: the workers have been joined *)
    intros _. destruct (Ho eq_refl) as [_ [?|[?|(j & repo & Hw)]]];
      [done|discriminate|].
    pose proof (all_done_lookup _ _ _ (Hj eq_refl) Hw). discriminate.
Qed.

Lemma exec_gated (E : Env) (info : patternInfo) (repos : list string)
    (sched : list label) (s s' : state) :
  sound s → gated repos s → exec E info sched s = Some s' → gated repos s'.
Proof.
  revert s. induction sched as [|l sched IH]; simpl; intros s Hs Hg Hx.
  { by simplify_eq. }
  destruct (step E info l s) as [s1|] eqn:Hstep; [|done].
  eauto using step_sound, step_gated.
Qed.

Lemma exec_unloaded (E : Env) (info : patternInfo) (sched : list label)
    (s s' : state) :
  unloaded false s → exec E info sched s = Some s' → unloaded false s'.
Proof.
  revert s. induction sched as [|l sched IH]; simpl; intros s Hs Hx.
  { by simplify_eq. }
  destruct (step E info l s) as [s1|] eqn:Hstep; [|done].
  apply (IH s1); [|done].
  apply (step_unloaded E info false l s s1 Hs); [|done].
  unfold allowed. by rewrite orb_true_r.
Qed.

(** The receive from [ctx.Done()] completes only on a cancelled context,
    and the worker then goes on to [searchRepo]. *)
Lemma check_step (E : Env) (info : patternInfo) (i : nat) (s s' : state) :
  step E info (Check i) s = Some s' →
  ∃ repo, workers s !! i = Some (WCheck repo)
          ∧ ctx_err s ≠ None
          ∧ s' = set_worker i (WSearch repo) s.
Proof.
  intros Hstep. destruct s as [c p m ws a ff ev].
  step_cases Hstep; simpl in *; destruct c; try done; eauto.
Qed.

(** On a live context the worker stays where it is. *)
Lemma check_blocks (E : Env) (info : patternInfo) (i : nat) (s : state) :
  ctx_err s = None → step E info (Check i) s = None.
Proof.
  intros Hc. unfold step. rewrite Hc. simpl.
  destruct (main s); try done; by destruct (workers s !! i) as [[]|].
Qed.

(** Once the caller has returned, it stays returned. *)
Lemma step_returned (E : Env) (info : patternInfo) (l : label) (s s' : state)
    (ret : list repoMatch * option error) :
  sound s → main s = MDone ret → step E info l s = Some s' → main s' = MDone ret.
Proof.
  destruct s as [c p m ws a ff ev]; simpl. intros [_ _ Hj _ _] -> Hstep.
  simpl in Hj. specialize (Hj eq_refl).
  step_cases Hstep; simpl in *; try done; not_all_done.
Qed.

Lemma SearchRepos_Some (E : Env) (info : patternInfo) (repos : list string)
    (sched : list label) (ret : list repoMatch * option error) :
  SearchRepos E info repos sched = Some ret ↔
  ∃ s, exec E info sched (init repos) = Some s ∧ main s = MDone ret.
Proof.
  unfold SearchRepos. split.
  - destruct (exec E info sched (init repos)) as [s|]; [|done].
    destruct (main s) eqn:Hm; try done. intros [= ->]. eauto.
  - intros (s & -> & ->). done.
Qed.

(** What is returned is a sequence or an error, never both; an error is the
    error of the context. *)
Lemma SearchRepos_return_shape (E : Env) (info : patternInfo)
    (repos : list string) (sched : list label)
    (rs : list repoMatch) (oe : option error) :
  SearchRepos E info repos sched = Some (rs, oe) →
  oe = None ∨ (rs = [] ∧ ∃ e, oe = Some e ∧ is_ctx_error e).
Proof.
  intros (s & Hx & Hm)%SearchRepos_Some.
  pose proof (exec_sound E info sched _ _ (sound_init repos) Hx)
    as [Hc _ _ _ Hd].
  specialize (Hd _ _ Hm). destruct oe as [e|]; [|by left].
  destruct Hd as [-> He]. right. split; [done|]. exists e. eauto.
Qed.

(** A sequence is returned only by a call that was given no repository:
    a worker that has taken one gets past [<-ctx.Done()] only when the
    context is cancelled, and then [ctx.Err()] is not nil. *)
Lemma SearchRepos_result_needs_no_repositories (E : Env) (info : patternInfo)
    (repos : list string) (sched : list label) (rs : list repoMatch) :
  SearchRepos E info repos sched = Some (rs, None) → repos = [] ∧ rs = [].
Proof.
  intros (s & Hx & Hm)%SearchRepos_Some.
  pose proof (exec_gated E info repos sched _ _ (sound_init repos)
                (gated_init repos) Hx) as [_ Hr].
  assert (repos = []) as -> by (apply Hr; right; eauto).
  split; [done|].
  pose proof (exec_unloaded E info sched _ _ (unloaded_init false) Hx)
    as [_ _ Hu].
  rewrite Hm in Hu. destruct Hu as [[= ->]|(_ & e & _ & [=])]. done.
Qed.

(** Every external call on record was made by some call of [searchRepo]. *)
Lemma step_events (E : Env) (info : patternInfo) (l : label) (s s' : state)
    (ev : event) :
  step E info l s = Some s' → ev ∈ events s' →
  ev ∈ events s ∨ ∃ repoName, ev ∈ (searchRepo E repoName info).2.
Proof.
  destruct s as [c p m ws a ff evs]. intros Hstep Hin.
  step_cases Hstep; simpl in *; eauto.
  all: apply elem_of_app in Hin as [?|Hin]; [by left|right].
  all: match goal with
       | Hs : searchRepo _ ?r _ = _ |- _ => exists r; by rewrite Hs
       end.
Qed.

Lemma exec_events (E : Env) (info : patternInfo) (sched : list label)
    (s s' : state) (ev : event) :
  exec E info sched s = Some s' → ev ∈ events s' →
  ev ∈ events s ∨ ∃ repoName, ev ∈ (searchRepo E repoName info).2.
Proof.
  revert s. induction sched as [|l sched IH]; simpl; intros s Hx Hin.
  { simplify_eq. by left. }
  destruct (step E info l s) as [s1|] eqn:Hstep; [|done].
  destruct (IH s1 Hx Hin) as [Hin1|?]; [|by right].
  eapply step_events; eauto.
Qed.

(** * The properties of the specification *)

(** Scenario A of the specification: matches arrive for [a] (two lines),
    [b] (none) and [c] (five); the result is ordered [b], [a], [c]. *)
Example accumulate_scenario_A :
  Repo ∘ uri <$>
    accumulate [[sample_match "a" "x.go" 2]; [sample_match "b" "y.go" 0];
                [sample_match "c" "z.go" 5]]
  = ["b"; "a"; "c"].
Proof. reflexivity. Qed.

(** C8 (as amended).  For a line match whose wire line number is a 32-bit
    integer below the largest one, [LineNumber] is that number plus one, and
    is again a 32-bit integer. *)
Theorem LineNumber_one_based (lm : lineMatch) :
  in_int32 (JLineNumber lm) → (JLineNumber lm < max_int32)%Z →
  LineNumber lm = (JLineNumber lm + 1)%Z ∧ in_int32 (LineNumber lm).
Proof.
  intros Hr Hlt. unfold LineNumber.
  assert (in_int32 (JLineNumber lm + 1)) as Hin.
  { unfold in_int32, min_int32, max_int32 in *. lia. }
  rewrite (wrap32_id _ Hin). done.
Qed.

Lemma LineNumber_one_based_witness :
  in_int32 (JLineNumber (sample_line 41))
  ∧ (JLineNumber (sample_line 41) < max_int32)%Z
  ∧ LineNumber (sample_line 41) = 42%Z.
Proof.
  assert (in_int32 (JLineNumber (sample_line 41))) as Hr by (by vm_compute).
  assert (JLineNumber (sample_line 41) < max_int32)%Z as Hlt by (by vm_compute).
  split; [exact Hr|]. split; [exact Hlt|].
  exact (proj1 (LineNumber_one_based (sample_line 41) Hr Hlt)).
Defined.

(** C8, counterexample.  At the largest 32-bit line number the sum wraps
    around: the accessor yields the smallest 32-bit integer, not the wire
    number plus one. *)
Lemma LineNumber_wraps :
  in_int32 (JLineNumber last_line)
  ∧ LineNumber last_line = min_int32
  ∧ LineNumber last_line ≠ (JLineNumber last_line + 1)%Z.
Proof. split; [by vm_compute|]. split; [reflexivity|]. by vm_compute. Qed.

(** C7 (as amended).  When no endpoint is configured, [textSearch] returns
    the configuration error and puts no request on the wire; a call of
    [searchRepo] that gets as far as [textSearch] returns the configuration
    error; no call of [searchRepo] sends a request to the searcher, and in
    no run of [SearchRepos] is a request sent to the searcher.  A call of
    [SearchRepos] with a repository does not hand the configuration error
    on: when it returns, it returns no sequence and the error of the
    context. *)
Theorem textSearch_unconfigured (E : Env) (repo commit : string)
    (p : patternInfo) :
  searcherURL E = "" →
  textSearch E repo commit p = (([], Some ConfigurationError), [])
  ∧ (∀ repoName info r c err,
       GetByURI E repoName = inr r → ResolveRev E (ID r) = (Some c, err) →
       (searchRepo E repoName info).1 = Returned ([], Some ConfigurationError))
  ∧ (∀ repoName info req, EvSearcher req ∉ (searchRepo E repoName info).2)
  ∧ (∀ info repos sched s req,
       exec E info sched (init repos) = Some s → EvSearcher req ∉ events s)
  ∧ (∀ info repos sched ret,
       repos ≠ [] → SearchRepos E info repos sched = Some ret →
       ∃ ce, is_ctx_error ce ∧ ret = ([], Some ce)).
Proof.
  intros Hurl.
  assert (∀ repoName info req, EvSearcher req ∉ (searchRepo E repoName info).2)
    as Hquiet.
  { intros repoName info req Hin.
    by apply (searchRepo_searcher_events E repoName info req Hin). }
  split; [|split; [|split; [|split]]].
  - unfold textSearch. by rewrite Hurl.
  - intros repoName info r c err Hg Hr. unfold searchRepo, textSearch.
    by rewrite Hg, Hr, Hurl.
  - done.
  - intros info repos sched s req Hx Hin.
    destruct (exec_events E info sched _ _ _ Hx Hin) as [Hin0|(repoName & Hin1)].
    + by apply elem_of_nil in Hin0.
    + by apply (Hquiet repoName info req).
  - intros info repos sched [rs [e|]] Hne Hret.
    + destruct (SearchRepos_return_shape _ _ _ _ _ _ Hret)
        as [?|(-> & e' & [= <-] & He)]; [done|]. eauto.
    + by destruct (SearchRepos_result_needs_no_repositories _ _ _ _ _ Hret).
Qed.

Lemma textSearch_unconfigured_witness :
  searcherURL unconfigured_env = ""
  ∧ textSearch unconfigured_env "a" "c0ffee" info0
    = (([], Some ConfigurationError), [])
  ∧ searchRepo unconfigured_env "a" info0
    = (Returned ([], Some ConfigurationError), [EvGetByURI "a"; EvResolveRev 1]).
Proof.
  split; [reflexivity|]. split.
  - exact (proj1 (textSearch_unconfigured unconfigured_env "a" "c0ffee" info0
                    eq_refl)).
  - reflexivity.
Defined.

(** C7, counterexample.  No endpoint is configured and the caller's context
    is cancelled: the search of [a] fails with the configuration error
    after the lookup and the resolution, and the call returns
    [context.Canceled], not the configuration error.  Under a context that
    stays alive the worker does not get as far as [textSearch], and the call
    has returned nothing. *)
Lemma SearchRepos_unconfigured_returns_ctx_error :
  searcherURL unconfigured_env = ""
  ∧ first_failure <$> exec unconfigured_env info0 one_sched (init ["a"])
    = Some (Some ConfigurationError)
  ∧ events <$> exec unconfigured_env info0 one_sched (init ["a"])
    = Some [EvGetByURI "a"; EvResolveRev 1]
  ∧ SearchRepos unconfigured_env info0 ["a"] one_sched
    = Some ([], Some ContextCanceled)
  ∧ ContextCanceled ≠ ConfigurationError
  ∧ events <$> exec unconfigured_env info0 live_sched (init ["a"]) = Some []
  ∧ SearchRepos unconfigured_env info0 ["a"] live_sched = None.
Proof. repeat split; by vm_compute. Qed.

(** C10, at the failing input.  The resolver fails with a nil commit and an
    error: [searchRepo] does not return that error, it panics on
    [commit.CommitID].  And when the resolver reports an error next to a
    non-nil commit, the searcher is called all the same and the call
    succeeds. *)
Theorem searchRepo_unresolved_revision :
  ResolveRev unresolved_env 1 = (None, Some (StoreError "revision not found"))
  ∧ (searchRepo unresolved_env "a" info0).1 = Panicked
  ∧ ResolveRev half_resolved_env 1
    = (Some {| CommitID := "" |}, Some (StoreError "revision not found"))
  ∧ (searchRepo half_resolved_env "a" info0).1 = Returned ([], None)
  ∧ searched_repos (searchRepo half_resolved_env "a" info0).2 = [["a"]].
Proof. repeat split; reflexivity. Qed.

(** C2 (as amended).  For two entries [a] at index [i] and [b] at index [j]
    of what [accumulate] returns: if [a] has fewer line matches than [b], or
    as many and a smaller path, then [a] stands before [b]; and if they have
    as many line matches and [a] stands before [b], then the path of [a] is
    smaller than or equal to that of [b]. *)
Theorem accumulate_sort_law (responses : list (list repoMatch)) (i j : nat)
    (a b : repoMatch) :
  accumulate responses !! i = Some a →
  accumulate responses !! j = Some b →
  (length (lineMatches a) < length (lineMatches b) → i < j)
  ∧ (length (lineMatches a) = length (lineMatches b) →
     String.compare (Path (uri a)) (Path (uri b)) = Lt → i < j)
  ∧ (length (lineMatches a) = length (lineMatches b) → i < j →
     String.compare (Path (uri a)) (Path (uri b)) ≠ Gt).
Proof.
  intros Ha Hb. pose proof (accumulate_sorted responses) as Hs.
  assert (j < i → may_precede b a) as Hji.
  { intros Hlt. by apply (StronglySorted_lookup _ _ j i b a Hs). }
  split; [|split].
  - intros Hlen. destruct (lt_eq_lt_dec i j) as [[?| ->]|Hlt]; [done| |].
    + rewrite Ha in Hb. injection Hb as ->. lia.
    + apply Hji, may_precede_spec in Hlt as [?|[? _]]; lia.
  - intros Hlen Hpath. destruct (lt_eq_lt_dec i j) as [[?| ->]|Hlt]; [done| |].
    + rewrite Ha in Hb. injection Hb as ->.
      rewrite string_compare_refl in Hpath. discriminate.
    + apply Hji, may_precede_spec in Hlt as [?|[_ Hle]]; [lia|].
      apply string_compare_gt_lt in Hpath. done.
  - intros Hlen Hlt.
    pose proof (StronglySorted_lookup _ _ i j a b Hs Hlt Ha Hb) as Hab.
    apply may_precede_spec in Hab as [?|[_ Hle]]; [lia|done].
Qed.

Lemma accumulate_sort_law_witness :
  let responses := [[sample_match "a" "x.go" 2]; [sample_match "b" "y.go" 0];
                    [sample_match "c" "x.go" 2]] in
  accumulate responses !! 1 = Some (sample_match "a" "x.go" 2)
  ∧ accumulate responses !! 0 = Some (sample_match "b" "y.go" 0)
  ∧ (length (lineMatches (sample_match "b" "y.go" 0))
       < length (lineMatches (sample_match "a" "x.go" 2)) → 0 < 1).
Proof.
  intros responses.
  assert (accumulate responses !! 0 = Some (sample_match "b" "y.go" 0)) as H0
    by reflexivity.
  assert (accumulate responses !! 1 = Some (sample_match "a" "x.go" 2)) as H1
    by reflexivity.
  split; [exact H1|]. split; [exact H0|].
  exact (proj1 (accumulate_sort_law responses 0 1 _ _ H0 H1)).
Defined.

(** C2, counterexample.  Two repositories each have one matching line in a
    file [README.md].  The entry of [a] stands before the entry of [b], they
    have as many line matches, and yet the path of the first is not smaller
    than the path of the second: they are the same path. *)
Lemma accumulate_equal_paths :
  let a := sample_match "a" "README.md" 1 in
  let b := sample_match "b" "README.md" 1 in
  accumulate [[a]; [b]] !! 0 = Some a
  ∧ accumulate [[a]; [b]] !! 1 = Some b
  ∧ length (lineMatches a) = length (lineMatches b)
  ∧ String.compare (Path (uri a)) (Path (uri b)) ≠ Lt.
Proof. repeat split; done. Qed.

(** The aggregator on its own.  When the same batches arrive in another
    order, the sequence of sort keys (count, path) of what [accumulate]
    returns is the same; and when no two entries have the same count and
    the same path, what it returns is the same. *)
Theorem accumulate_arrival_order (responses1 responses2 : list (list repoMatch)) :
  responses1 ≡ₚ responses2 →
  sort_key <$> accumulate responses1 = sort_key <$> accumulate responses2
  ∧ (NoDup (sort_key <$> concat responses1) →
     accumulate responses1 = accumulate responses2).
Proof.
  intros Hp. apply concat_Permutation in Hp.
  assert (accumulate responses1 ≡ₚ accumulate responses2) as Hacc.
  { by rewrite !accumulate_Permutation. }
  assert (sort_key <$> accumulate responses1 = sort_key <$> accumulate responses2)
    as Hkeys.
  { apply (StronglySorted_unique_strong key_le).
    - intros k1 k2 _ _. apply key_le_antisym.
    - eapply StronglySorted_fmap; [|apply accumulate_sorted].
      apply may_precede_key_le.
    - eapply StronglySorted_fmap; [|apply accumulate_sorted].
      apply may_precede_key_le.
    - by rewrite Hacc. }
  split; [done|]. intros Hnd.
  apply (Permutation_same_keys sort_key); [done..|].
  by rewrite accumulate_Permutation.
Qed.

Lemma accumulate_arrival_order_witness :
  let a := sample_match "a" "x.go" 2 in
  let b := sample_match "b" "y.go" 0 in
  [[a]; [b]] ≡ₚ [[b]; [a]]
  ∧ sort_key <$> accumulate [[a]; [b]] = sort_key <$> accumulate [[b]; [a]].
Proof.
  intros a b.
  assert ([[a]; [b]] ≡ₚ [[b]; [a]]) as Hp by apply Permutation_swap.
  split; [exact Hp|].
  exact (proj1 (accumulate_arrival_order _ _ Hp)).
Defined.

(** Two batches, each one match in a file [README.md] with one matching
    line, arrive in the two possible orders: what [accumulate] returns
    differs.  No call of [SearchRepos] returns either sequence. *)
Lemma accumulate_depends_on_arrival :
  let a := sample_match "a" "README.md" 1 in
  let b := sample_match "b" "README.md" 1 in
  [[a]; [b]] ≡ₚ [[b]; [a]]
  ∧ accumulate [[a]; [b]] = [a; b]
  ∧ accumulate [[b]; [a]] = [b; a]
  ∧ accumulate [[a]; [b]] ≠ accumulate [[b]; [a]].
Proof.
  intros a b. split; [apply Permutation_swap|]. repeat split; done.
Qed.



(** C1 (as amended).  When a call of [SearchRepos] returns after a worker's
    search has failed, the context has been cancelled and what is returned
    is no sequence and the error of the context, [ctx.Err()]:
    [context.Canceled] or [context.DeadlineExceeded]. *)
Theorem SearchRepos_failure_returns_ctx_error (E : Env) (info : patternInfo)
    (repos : list string) (sched : list label) (s : state) (e : error)
    (ret : list repoMatch * option error) :
  exec E info sched (init repos) = Some s →
  first_failure s = Some e →
  main s = MDone ret →
  ∃ ce, ctx_err s = Some ce ∧ is_ctx_error ce ∧ ret = ([], Some ce).
Proof.
  intros Hx Hf Hm. destruct ret as [rs oe].
  pose proof (exec_sound E info sched _ _ (sound_init repos) Hx) as [Hc _ _ _ Hd].
  specialize (Hd _ _ Hm). destruct oe as [ce|].
  - destruct Hd as [-> Hce]. exists ce. eauto.
  - congruence.
Qed.

Lemma SearchRepos_failure_returns_ctx_error_witness :
  match exec unconfigured_env info0 five_sched (init five_repos) with
  | Some s =>
      first_failure s = Some ConfigurationError
      ∧ main s = MDone ([], Some ContextCanceled)
      ∧ ∃ ce, ctx_err s = Some ce ∧ is_ctx_error ce
              ∧ (([], Some ContextCanceled) : list repoMatch * option error)
                = ([], Some ce)
  | None => False
  end.
Proof.
  destruct (exec unconfigured_env info0 five_sched (init five_repos))
    as [s|] eqn:Hx; [|by vm_compute in Hx].
  assert (first_failure s = Some ConfigurationError) as Hf.
  { vm_compute in Hx. by injection Hx as <-. }
  assert (main s = MDone ([], Some ContextCanceled)) as Hm.
  { vm_compute in Hx. by injection Hx as <-. }
  split; [exact Hf|]. split; [exact Hm|].
  exact (SearchRepos_failure_returns_ctx_error _ _ _ _ _ _ _ Hx Hf Hm).
Defined.

(** C1, counterexample.  Five repositories and a failure that does not
    depend on the context.  Without a searcher endpoint the first error of
    a worker is the configuration error; with a store that does not know
    the repositories it is the error of the store.  Either call returns
    [context.Canceled]. *)
Lemma SearchRepos_drops_worker_error :
  first_failure <$> exec unconfigured_env info0 five_sched (init five_repos)
  = Some (Some ConfigurationError)
  ∧ SearchRepos unconfigured_env info0 five_repos five_sched
    = Some ([], Some ContextCanceled)
  ∧ ContextCanceled ≠ ConfigurationError
  ∧ first_failure <$> exec unknown_env info0 five_sched (init five_repos)
    = Some (Some (StoreError "repo not found"))
  ∧ SearchRepos unknown_env info0 five_repos five_sched
    = Some ([], Some ContextCanceled)
  ∧ ContextCanceled ≠ StoreError "repo not found".
Proof. repeat split; by vm_compute. Qed.

(** C3, at the failing input.  Two repositories, the search of [a] fails.
    Before the context is cancelled the worker holding [a] cannot get past
    the receive from [ctx.Done()].  Once the context is cancelled and worker
    0 has failed and called [cancel()], worker 1 takes [b], finds the signal
    set, and goes on: it enters [searchRepo], resolves the revision and
    calls the searcher for [b]. *)
Theorem worker_searches_after_cancellation :
  let E := sample_env searcher_url ["a"] in
  (step E info0 (Check 0) <$> exec E info0 [Feed 0] (init ["a"; "b"])) = Some None
  ∧ view <$> exec E info0 two_sched (init ["a"; "b"])
    = Some (MFeed [], Some ContextCanceled,
            Some (NetworkError "connection refused"),
            [WDone; WCheck "b"] ++ replicate 8 WRecv)
  ∧ view <$> exec E info0 (two_sched ++ [Check 1]) (init ["a"; "b"])
    = Some (MFeed [], Some ContextCanceled,
            Some (NetworkError "connection refused"),
            [WDone; WSearch "b"] ++ replicate 8 WRecv)
  ∧ searched_repos ∘ events
      <$> exec E info0 (two_sched ++ [Check 1; Search 1]) (init ["a"; "b"])
    = Some [["a"]; ["b"]].
Proof. repeat split; by vm_compute. Qed.

(** C4, at the failing input.  With at least one repository and a caller's
    context that is not cancelled, no run of [SearchRepos] ever returns, and
    no repository is ever searched. *)
Theorem SearchRepos_blocks_on_live_context (E : Env) (info : patternInfo)
    (repos : list string) (sched : list label) :
  repos ≠ [] → quiet sched = true →
  SearchRepos E info repos sched = None
  ∧ ∀ s, exec E info sched (init repos) = Some s → events s = [].
Proof.
  intros Hne Hq. destruct repos as [|r rest]; [done|].
  assert (∀ s, exec E info sched (init (r :: rest)) = Some s → blocked s) as Hb.
  { intros s Hx. exact (exec_blocked E info sched _ _ (blocked_init r rest) Hq Hx). }
  split.
  - unfold SearchRepos.
    destruct (exec E info sched (init (r :: rest))) as [s|] eqn:Hx; [|done].
    destruct (Hb s eq_refl) as [_ _ _ Hm].
    destruct (main s) as [| | | |ret|]; try done.
    destruct Hm as [(? & ? & ?)|[[(? & ?)|?] _]]; discriminate.
  - intros s Hx. by destruct (Hb s Hx).
Qed.

Lemma SearchRepos_blocks_on_live_context_witness :
  ["a"] ≠ [] ∧ quiet live_sched = true
  ∧ exec (sample_env searcher_url []) info0 live_sched (init ["a"]) ≠ None
  ∧ SearchRepos (sample_env searcher_url []) info0 ["a"] live_sched = None.
Proof.
  assert (["a"] ≠ @nil string) as Hne by done.
  assert (quiet live_sched = true) as Hq by reflexivity.
  split; [exact Hne|]. split; [exact Hq|]. split; [by vm_compute|].
  exact (proj1 (SearchRepos_blocks_on_live_context _ _ _ _ Hne Hq)).
Defined.

(** The run [live_sched] ends in a deadlock: the caller is in [wg.Wait()],
    worker 0 is at the receive from [ctx.Done()], and no goroutine can
    move. *)
Example SearchRepos_live_deadlock :
  view <$> exec (sample_env searcher_url []) info0 live_sched (init ["a"])
  = Some (MWait, None, None, WCheck "a" :: replicate 9 WDone)
  ∧ deadlocked (sample_env searcher_url []) info0
      <$> exec (sample_env searcher_url []) info0 live_sched (init ["a"])
    = Some true.
Proof. split; by vm_compute. Qed.

(** C6, at the failing input.  With more repositories than workers and
    every search failing, no run of [SearchRepos] ever returns: it returns
    neither an error nor anything else. *)
Theorem SearchRepos_blocks_when_pool_dies (E : Env) (info : patternInfo)
    (repos : list string) (sched : list label) :
  nworkers < length repos →
  Forall (search_fails E info) repos →
  SearchRepos E info repos sched = None.
Proof.
  intros Hlen Hfail. unfold SearchRepos.
  destruct (exec E info sched (init repos)) as [s|] eqn:Hx; [|done].
  pose proof (exec_starved E info sched _ _
                (starved_init E info repos Hlen Hfail) Hx)
    as [(rest & Hm & _) _].
  by rewrite Hm.
Qed.

Lemma SearchRepos_blocks_when_pool_dies_witness :
  nworkers < length eleven_repos
  ∧ Forall (search_fails (sample_env searcher_url eleven_repos) info0) eleven_repos
  ∧ exec (sample_env searcher_url eleven_repos) info0 eleven_sched
      (init eleven_repos) ≠ None
  ∧ SearchRepos (sample_env searcher_url eleven_repos) info0 eleven_repos
      eleven_sched = None.
Proof.
  assert (nworkers < length eleven_repos) as Hlen by (vm_compute; lia).
  assert (Forall (search_fails (sample_env searcher_url eleven_repos) info0)
            eleven_repos) as Hfail.
  { repeat constructor; eexists _, _; by vm_compute. }
  split; [exact Hlen|]. split; [exact Hfail|]. split; [by vm_compute|].
  exact (SearchRepos_blocks_when_pool_dies _ _ _ _ Hlen Hfail).
Defined.

(** The run [eleven_sched] ends in a deadlock: ten searches have failed,
    the ten workers have returned, the caller is blocked sending the
    eleventh repository, and no goroutine can move. *)
Example SearchRepos_pool_deadlock :
  view <$> exec (sample_env searcher_url eleven_repos) info0 eleven_sched
             (init eleven_repos)
  = Some (MFeed ["r10"], Some ContextCanceled,
          Some (NetworkError "connection refused"), replicate 10 WDone)
  ∧ deadlocked (sample_env searcher_url eleven_repos) info0
      <$> exec (sample_env searcher_url eleven_repos) info0 eleven_sched
            (init eleven_repos)
    = Some true.
Proof. split; by vm_compute. Qed.



(** Given no repository and a live context, this is a run to the end. *)
Example SearchRepos_no_repositories_run :
  SearchRepos (sample_env searcher_url []) info0 [] calm_sched
  = Some ([], None).
Proof. by vm_compute. Qed.

(** * Further properties of the code *)

(** ** The searcher client *)

(** X1.  The query [textSearch] sends carries [Repo], [Commit] and [Pattern]
    with the values it was given, each of [IsRegExp], [IsWordMatch] and
    [IsCaseSensitive] with the value [true] exactly when the flag is set,
    and no other parameter. *)
Theorem query_parameters (repo commit : string) (p : patternInfo) (k : string) :
  query repo commit p !! k = expected_parameter repo commit p k.
Proof.
  unfold query, expected_parameter.
  destruct (IsRegExp p), (IsWordMatch p), (IsCaseSensitive p);
    repeat case_decide; subst; by simplify_map_eq.
Qed.

(** X2.  [textSearch] sends at most one request, and a request it sends is
    a GET to the configured endpoint with the query of the repository, the
    commit and the pattern. *)
Theorem textSearch_one_request (E : Env) (repo commit : string)
    (p : patternInfo) :
  (textSearch E repo commit p).2 = []
  ∨ (textSearch E repo commit p).2 = [EvSearcher (searcher_request E repo commit p)].
Proof.
  unfold textSearch, searcher_request.
  repeat (case_match; simpl); auto.
Qed.

(** X3.  [textSearch] returns without an error only if the endpoint is
    configured, the request went out, the response had status 200 and its
    body was read and decoded without an error; what it returns is then
    what the decoder produced. *)
Theorem textSearch_success (E : Env) (repo commit : string) (p : patternInfo)
    (fms : list (ptr fileMatch)) :
  (textSearch E repo commit p).1 = (fms, None) →
  searcherURL E ≠ ""
  ∧ (textSearch E repo commit p).2 = [EvSearcher (searcher_request E repo commit p)]
  ∧ ∃ resp body,
      client_Do E (searcher_request E repo commit p) = inr resp
      ∧ StatusCode resp = 200%Z
      ∧ Body resp = inr body
      ∧ json_Decode E body = (fms, None).
Proof.
  unfold textSearch, searcher_request.
  destruct (String.eqb_spec (searcherURL E) "") as [?|Hurl]; [done|].
  destruct (NewRequest_err E (searcherURL E)); [done|].
  destruct (client_Do E _) as [e|resp] eqn:Hdo; [done|].
  destruct (Z.eqb_spec (StatusCode resp) 200) as [Hst|?]; simpl.
  - destruct (Body resp) as [e|body] eqn:Hb; [done|].
    intros Hd. split; [done|]. split; [done|]. exists resp, body. done.
  - by destruct (Body resp).
Qed.

Lemma textSearch_success_witness :
  (textSearch (sample_env searcher_url []) "a" "c0ffee" info0).1
  = ([Some {| JPath := "README.md"; JLineMatches := [Some (sample_line 0)] |}],
     None)
  ∧ searcherURL (sample_env searcher_url []) ≠ "".
Proof.
  assert ((textSearch (sample_env searcher_url []) "a" "c0ffee" info0).1
          = ([Some {| JPath := "README.md";
                      JLineMatches := [Some (sample_line 0)] |}], None)) as H
    by reflexivity.
  split; [exact H|].
  exact (proj1 (textSearch_success _ _ _ _ _ H)).
Defined.

(** X4.  A response whose status is not 200 is never decoded: [textSearch]
    returns no matches and an error, which carries the status code and the
    body when the body can be read. *)
Theorem textSearch_non_200 (E : Env) (repo commit : string) (p : patternInfo)
    (resp : Response) :
  searcherURL E ≠ "" →
  NewRequest_err E (searcherURL E) = None →
  client_Do E (searcher_request E repo commit p) = inr resp →
  StatusCode resp ≠ 200%Z →
  ∃ e, (textSearch E repo commit p).1 = ([], Some e)
       ∧ ∀ body, Body resp = inr body → e = RemoteError (StatusCode resp) body.
Proof.
  intros Hurl Hnew Hdo Hst. unfold textSearch, searcher_request in *.
  destruct (String.eqb_spec (searcherURL E) "") as [?|_]; [done|].
  rewrite Hnew, Hdo.
  destruct (Z.eqb_spec (StatusCode resp) 200) as [?|_]; [done|]. simpl.
  destruct (Body resp) as [e|body]; eexists; (split; [done|]); congruence.
Qed.

Lemma textSearch_non_200_witness :
  ∃ e, (textSearch overloaded_env "a" "c0ffee" info0).1 = ([], Some e)
       ∧ ∀ body, Body {| StatusCode := 503; Body := inr "overloaded" |} = inr body →
                 e = RemoteError 503 body.
Proof.
  apply (textSearch_non_200 overloaded_env "a" "c0ffee" info0
           {| StatusCode := 503; Body := inr "overloaded" |});
    [done|reflexivity|reflexivity|done].
Defined.

(** ** Searching one repository *)

Lemma repoMatches_of_no_partial (E : Env) (repoName commitID : string)
    (fms : list (ptr fileMatch)) (rms : list repoMatch) (e : error) :
  repoMatches_of E repoName commitID fms = Returned (rms, Some e) → rms = [].
Proof.
  revert rms. induction fms as [|[fm|] fms IH]; simpl; intros rms Hr; [done| |done].
  destruct (uri_Parse E _) as [e'|u]; [by simplify_eq|].
  destruct (repoMatches_of E repoName commitID fms) as [[rms' [e'|]]|];
    [|done|done].
  simplify_eq. by apply IH.
Qed.

(** X5.  [searchRepo] hands back matches or an error, never both: when it
    returns an error it returns no match, also when the error comes from
    the URI of a later file or from a decoder that had decoded some files
    already. *)
Theorem searchRepo_no_partial_result (E : Env) (repoName : string)
    (info : patternInfo) (rms : list repoMatch) (e : error) :
  (searchRepo E repoName info).1 = Returned (rms, Some e) → rms = [].
Proof.
  unfold searchRepo.
  destruct (GetByURI E repoName) as [e0|repo]; simpl; [by intros ?; simplify_eq|].
  destruct (ResolveRev E (ID repo)) as [[commit|] err]; simpl; [|done].
  destruct (textSearch E repoName (CommitID commit) info) as [[fms [e1|]] net];
    simpl; [by intros ?; simplify_eq|].
  apply repoMatches_of_no_partial.
Qed.

Lemma searchRepo_no_partial_result_witness :
  (searchRepo (sample_env searcher_url ["c"]) "c" info0).1
  = Returned ([], Some (NetworkError "connection refused"))
  ∧ ([] : list repoMatch) = [].
Proof.
  assert ((searchRepo (sample_env searcher_url ["c"]) "c" info0).1
          = Returned ([], Some (NetworkError "connection refused"))) as H
    by reflexivity.
  split; [exact H|].
  exact (searchRepo_no_partial_result _ _ _ _ _ H).
Defined.

Lemma repoMatches_of_success (E : Env) (repoName commitID : string)
    (fms : list (ptr fileMatch)) (rms : list repoMatch) :
  repoMatches_of E repoName commitID fms = Returned (rms, None) →
  Forall2 (match_of E repoName commitID) rms fms.
Proof.
  revert rms. induction fms as [|[fm|] fms IH]; simpl; intros rms Hr.
  - injection Hr as <-. constructor.
  - destruct (uri_Parse E _) as [e'|u] eqn:Hu; [done|].
    destruct (repoMatches_of E repoName commitID fms) as [[rms' [e'|]]|];
      [done| |done].
    injection Hr as <-. constructor; [|by apply IH].
    exists fm. done.
  - done.
Qed.

(** X6.  When [searchRepo] succeeds, the lookup, the resolution and the
    search succeeded, and it returns one match for each file match of the
    searcher, in the same order: the match has the line matches of the file
    and the URI parsed from [repo?commit#path]. *)
Theorem searchRepo_success (E : Env) (repoName : string) (info : patternInfo)
    (rms : list repoMatch) :
  (searchRepo E repoName info).1 = Returned (rms, None) →
  ∃ repo commit fms,
    GetByURI E repoName = inr repo
    ∧ (ResolveRev E (ID repo)).1 = Some commit
    ∧ (textSearch E repoName (CommitID commit) info).1 = (fms, None)
    ∧ Forall2 (match_of E repoName (CommitID commit)) rms fms.
Proof.
  unfold searchRepo.
  destruct (GetByURI E repoName) as [e0|repo]; simpl; [done|].
  destruct (ResolveRev E (ID repo)) as [[commit|] err] eqn:Hr; simpl; [|done].
  destruct (textSearch E repoName (CommitID commit) info) as [[fms [e1|]] net]
    eqn:Ht; simpl; [done|].
  intros Hm. exists repo, commit, fms.
  rewrite Hr, Ht. repeat split; try done. by apply repoMatches_of_success.
Qed.

Lemma searchRepo_success_witness :
  (searchRepo (sample_env searcher_url []) "a" info0).1
  = Returned ([sample_match "a" "README.md" 1], None)
  ∧ ∃ repo commit fms,
      GetByURI (sample_env searcher_url []) "a" = inr repo
      ∧ (ResolveRev (sample_env searcher_url []) (ID repo)).1 = Some commit
      ∧ (textSearch (sample_env searcher_url []) "a" (CommitID commit) info0).1
        = (fms, None)
      ∧ Forall2 (match_of (sample_env searcher_url []) "a" (CommitID commit))
          [sample_match "a" "README.md" 1] fms.
Proof.
  assert ((searchRepo (sample_env searcher_url []) "a" info0).1
          = Returned ([sample_match "a" "README.md" 1], None)) as H
    by reflexivity.
  split; [exact H|].
  exact (searchRepo_success _ _ _ _ H).
Defined.

Lemma textSearch_events_length (E : Env) (repo commit : string)
    (p : patternInfo) :
  (length (textSearch E repo commit p).2 ≤ 1)%nat.
Proof.
  unfold textSearch. repeat (case_match; simpl); lia.
Qed.

(** X7.  [searchRepo] makes its external calls in a fixed order and stops
    at the first that fails: it looks the repository up; only after a
    successful lookup does it resolve the revision; only with a commit in
    hand does it call the searcher, and that at most once. *)
Theorem searchRepo_calls (E : Env) (repoName : string) (info : patternInfo) :
  match GetByURI E repoName with
  | inl e =>
      searchRepo E repoName info
      = (Returned ([], Some e), [EvGetByURI repoName])
  | inr repo =>
      match (ResolveRev E (ID repo)).1 with
      | None =>
          (searchRepo E repoName info).2
          = [EvGetByURI repoName; EvResolveRev (ID repo)]
      | Some commit =>
          (searchRepo E repoName info).2
          = [EvGetByURI repoName; EvResolveRev (ID repo)]
              ++ (textSearch E repoName (CommitID commit) info).2
          ∧ (length (searchRepo E repoName info).2 ≤ 3)%nat
      end
  end.
Proof.
  unfold searchRepo.
  destruct (GetByURI E repoName) as [e0|repo]; [done|].
  destruct (ResolveRev E (ID repo)) as [[commit|] err]; simpl; [|done].
  pose proof (textSearch_events_length E repoName (CommitID commit) info) as Hone.
  destruct (textSearch E repoName (CommitID commit) info) as [[fms [e1|]] net];
    simpl in *; (split; [done|]); lia.
Qed.

(** X8.  A nil element among the file matches (a JSON [null]) makes the
    loop of [searchRepo] panic, whatever follows it, provided the files
    before it are there and their URIs parse. *)
Theorem repoMatches_of_nil_file (E : Env) (repoName commitID : string)
    (before after : list (ptr fileMatch)) :
  Forall (parses E repoName commitID) before →
  repoMatches_of E repoName commitID (before ++ None :: after) = Panicked.
Proof.
  induction 1 as [|ofm before (fm & u & -> & Hu) _ IH]; simpl; [done|].
  by rewrite Hu, IH.
Qed.

Lemma repoMatches_of_nil_file_witness :
  Forall (parses (sample_env searcher_url []) "a" "c0ffee")
    [Some {| JPath := "README.md"; JLineMatches := [] |}]
  ∧ repoMatches_of (sample_env searcher_url []) "a" "c0ffee"
      ([Some {| JPath := "README.md"; JLineMatches := [] |}] ++ None :: [])
    = Panicked.
Proof.
  assert (Forall (parses (sample_env searcher_url []) "a" "c0ffee")
            [Some {| JPath := "README.md"; JLineMatches := [] |}]) as H.
  { repeat constructor. eexists _, _. split; [reflexivity|reflexivity]. }
  split; [exact H|].
  exact (repoMatches_of_nil_file _ _ _ _ [] H).
Defined.

(** ** The aggregator *)

(** X9.  The comparison of [accumulate] is a strict weak order, as
    [sort.Slice] needs it: no entry is less than itself, the comparison is
    transitive, and so is being incomparable. *)
Theorem less_strict_weak_order (a b c : repoMatch) :
  less a a = false
  ∧ (less a b = true → less b c = true → less a c = true)
  ∧ (less a b = false → less b c = false → less a c = false).
Proof.
  split; [|split].
  - destruct (less a a) eqn:H; [|done].
    pose proof (less_asym a a H). congruence.
  - rewrite !less_spec. intros [?|[? Hab]] [?|[? Hbc]]; try (left; lia).
    right. split; [lia|]. eauto using string_compare_lt_trans.
  - intros Hab Hbc. exact (may_precede_trans c b a Hbc Hab).
Qed.

(** X10.  [accumulate] neither drops nor duplicates nor invents an entry:
    what it returns is a rearrangement of the batches laid end to end, so it
    has as many entries as all batches together. *)
Theorem accumulate_keeps_entries (responses : list (list repoMatch)) :
  accumulate responses ≡ₚ concat responses
  ∧ length (accumulate responses) = sum_list_with length responses.
Proof.
  assert (accumulate responses ≡ₚ concat responses) as Hp
    by apply sort_Slice_Permutation.
  split; [done|]. rewrite Hp. clear Hp.
  induction responses as [|r rs IH]; simpl; [done|].
  by rewrite length_app, IH.
Qed.

(** X11.  When no two entries share both sort keys and the entries of the
    batches, laid end to end, are in order already, [accumulate] returns
    them as they came; in particular aggregating an aggregate again changes
    nothing. *)
Theorem accumulate_sorted_input (responses : list (list repoMatch)) :
  NoDup (sort_key <$> concat responses) →
  (StronglySorted may_precede (concat responses) →
   accumulate responses = concat responses)
  ∧ accumulate [accumulate responses] = accumulate responses.
Proof.
  intros Hnd.
  assert (∀ l : list repoMatch,
            NoDup (sort_key <$> l) → StronglySorted may_precede l →
            sort_Slice less l = l) as Hid.
  { intros l Hl Hs.
    assert (sort_Slice less l ≡ₚ l) as Hp by apply sort_Slice_Permutation.
    apply (Permutation_same_keys sort_key); [done| |by rewrite Hp].
    apply (StronglySorted_unique_strong key_le).
    - intros k1 k2 _ _. apply key_le_antisym.
    - eapply StronglySorted_fmap; [apply may_precede_key_le|].
      apply (sort_Slice_sorted less); [apply less_asym|].
      intros x y z. apply may_precede_trans.
    - eapply StronglySorted_fmap; [apply may_precede_key_le|done].
    - by rewrite Hp. }
  split.
  - intros Hs. by apply Hid.
  - unfold accumulate at 1. simpl. rewrite app_nil_r. apply Hid.
    + by rewrite (accumulate_Permutation responses).
    + apply (sort_Slice_sorted less); [apply less_asym|].
      intros x y z. apply may_precede_trans.
Qed.

Lemma accumulate_sorted_input_witness :
  let responses := [[sample_match "a" "a.go" 1]; [sample_match "b" "b.go" 2]] in
  NoDup (sort_key <$> concat responses)
  ∧ (StronglySorted may_precede (concat responses) →
     accumulate responses = concat responses)
  ∧ accumulate [accumulate responses] = accumulate responses.
Proof.
  intros responses.
  assert (NoDup (sort_key <$> concat responses)) as H
    by (apply (bool_decide_unpack _); by vm_compute).
  split; [exact H|].
  exact (accumulate_sorted_input responses H).
Defined.

(** ** The blame line *)

(** X12.  With a limit of at least one when an ellipsis is asked for, and
    of at least zero when not, [limitString] returns a string exactly as
    long as the shorter of the string and the limit. *)
Theorem limitString_length (s : list N) (n : Z) (dotdotdot : bool) :
  (if dotdotdot then 1 <= n else 0 <= n)%Z →
  Z.of_nat (length (limitString s n dotdotdot)) = Z.min (Z.of_nat (length s)) n.
Proof.
  intros Hn. unfold limitString, substring0.
  destruct (Z.gtb_spec (Z.of_nat (length s)) n) as [Hgt|Hle]; [|lia].
  destruct dotdotdot.
  - rewrite length_app, length_take. simpl. lia.
  - rewrite length_take. lia.
Qed.

Lemma limitString_length_witness :
  (1 <= 3)%Z
  ∧ Z.of_nat (length (limitString [104; 101; 108; 108; 111]%N 3 true))
    = Z.min (Z.of_nat (length [104; 101; 108; 108; 111]%N)) 3.
Proof.
  assert (1 <= 3)%Z as H by lia.
  split; [exact H|].
  exact (limitString_length [104; 101; 108; 108; 111]%N 3 true H).
Defined.

(** X13.  With an ellipsis asked for and a limit of zero or less, a string
    longer than the limit comes back as the ellipsis alone: one unit, more
    than the limit allows. *)
Theorem limitString_small_limit (s : list N) (n : Z) :
  (n <= 0)%Z → (n < Z.of_nat (length s))%Z →
  limitString s n true = [ellipsis].
Proof.
  intros Hn Hlen. unfold limitString, substring0.
  destruct (Z.gtb_spec (Z.of_nat (length s)) n) as [_|?]; [|lia].
  replace (Z.to_nat (n - 1)) with 0 by lia. done.
Qed.

Lemma limitString_small_limit_witness :
  (0 <= 0)%Z ∧ (0 < Z.of_nat (length [104; 105]%N))%Z
  ∧ limitString [104; 105]%N 0 true = [ellipsis].
Proof.
  assert (0 <= 0)%Z as H1 by lia.
  assert (0 < Z.of_nat (length [104; 105]%N))%Z as H2 by (simpl; lia).
  split; [exact H1|]. split; [exact H2|].
  exact (limitString_small_limit [104; 105]%N 0 H1 H2).
Defined.

(** X14.  [limitString] leaves the units it keeps where they were: every
    position below the limit, or below the limit less one when an ellipsis
    is asked for, holds what the string holds there. *)
Theorem limitString_prefix (s : list N) (n : Z) (dotdotdot : bool) (i : nat) :
  (Z.of_nat i < (if dotdotdot then n - 1 else n))%Z →
  limitString s n dotdotdot !! i = s !! i.
Proof.
  intros Hi. unfold limitString, substring0.
  destruct (Z.gtb_spec (Z.of_nat (length s)) n) as [Hgt|Hle]; [|done].
  destruct dotdotdot.
  - rewrite lookup_app_l by (rewrite length_take; lia).
    apply lookup_take_lt. lia.
  - apply lookup_take_lt. lia.
Qed.

Lemma limitString_prefix_witness :
  (Z.of_nat 1 < 3 - 1)%Z
  ∧ limitString [104; 101; 108; 108; 111]%N 3 true !! 1 = Some 101%N.
Proof.
  assert (Z.of_nat 1 < 3 - 1)%Z as H by lia.
  split; [exact H|].
  exact (limitString_prefix [104; 101; 108; 108; 111]%N 3 true 1 H).
Defined.

(** X15.  Under the same condition on the limit as for the length,
    limiting a limited string again changes nothing. *)
Theorem limitString_idempotent (s : list N) (n : Z) (dotdotdot : bool) :
  (if dotdotdot then 1 <= n else 0 <= n)%Z →
  limitString (limitString s n dotdotdot) n dotdotdot
  = limitString s n dotdotdot.
Proof.
  intros Hn.
  assert (Z.of_nat (length (limitString s n dotdotdot)) <= n)%Z as Hle.
  { unfold limitString, substring0.
    destruct (Z.gtb_spec (Z.of_nat (length s)) n) as [Hgt|?]; [|lia].
    destruct dotdotdot.
    - rewrite length_app, length_take. simpl. lia.
    - rewrite length_take. lia. }
  unfold limitString at 1.
  destruct (Z.gtb_spec (Z.of_nat (length (limitString s n dotdotdot))) n);
    [lia|done].
Qed.

Lemma limitString_idempotent_witness :
  (1 <= 3)%Z
  ∧ limitString (limitString [104; 101; 108; 108; 111]%N 3 true) 3 true
    = limitString [104; 101; 108; 108; 111]%N 3 true.
Proof.
  assert (1 <= 3)%Z as H by lia.
  split; [exact H|].
  exact (limitString_idempotent [104; 101; 108; 108; 111]%N 3 true H).
Defined.

(** ** The orchestrator: the pool and the accumulator *)

Lemma sum_list_with_insert (f : wstate → nat) (ws : list wstate) (i : nat)
    (w w' : wstate) :
  ws !! i = Some w →
  sum_list_with f (<[i := w']> ws) + f w = sum_list_with f ws + f w'.
Proof.
  revert i. induction ws as [|w0 ws IH]; intros [|i] Hi; simpl in *; try done.
  - injection Hi as ->. lia.
  - specialize (IH i Hi). lia.
Qed.

Lemma sum_list_with_lookup (f : wstate → nat) (ws : list wstate) (i : nat)
    (w : wstate) :
  ws !! i = Some w → (f w ≤ sum_list_with f ws)%nat.
Proof.
  revert i. induction ws as [|w0 ws IH]; intros [|i] Hi; simpl in *; try done.
  - injection Hi as ->. lia.
  - specialize (IH i Hi). lia.
Qed.

Lemma held_insert (ws : list wstate) (i : nat) (w w' : wstate) :
  ws !! i = Some w →
  held (<[i := w']> ws) ++ hold w ≡ₚ held ws ++ hold w'.
Proof.
  revert i. induction ws as [|w0 ws IH]; intros [|i] Hi; simpl in *; try done.
  - injection Hi as ->. rewrite <- !app_assoc.
    rewrite (Permutation_app_comm (hold w') (held ws ++ hold w)).
    rewrite <- app_assoc. apply Permutation_app_swap_app.
  - rewrite <- !app_assoc. by rewrite (IH i Hi).
Qed.

Lemma held_all_done (ws : list wstate) :
  Forall (λ w, w = WDone) ws → held ws = [].
Proof. induction 1 as [|w ws -> _ IH]; simpl; done. Qed.

Lemma tidy_init (repos : list string) : tidy (init repos).
Proof.
  split; simpl; done.
Qed.

Lemma step_tidy (E : Env) (info : patternInfo) (l : label) (s s' : state) :
  sound s → tidy s → step E info l s = Some s' → tidy s'.
Proof.
  destruct s as [c p m ws a ff ev].
  intros [_ _ Hj _ _] [Hlen Hres Hacc] Hstep; simpl in *.
  step_cases Hstep; simpl in *.
  all: split; simpl; rewrite ?length_insert; try done.
  all: try (intros H; destruct (Hacc H) as [? ?]; discriminate).
  all: try (intros H; destruct (Hacc H) as [rs0 ?]; simplify_eq;
            specialize (Hj eq_refl); not_all_done).
  all: try (intros rs0 ?; simplify_eq; specialize (Hres _ eq_refl); discriminate).
  all: try (intros; eauto; fail).
Qed.

Lemma exec_tidy (E : Env) (info : patternInfo) (sched : list label)
    (s s' : state) :
  sound s → tidy s → exec E info sched s = Some s' → tidy s'.
Proof.
  revert s. induction sched as [|l sched IH]; simpl; intros s Hs Ht Hx.
  { by simplify_eq. }
  destruct (step E info l s) as [s1|] eqn:Hstep; [|done].
  eauto using step_sound, step_tidy.
Qed.

(** X16.  No worker outlives the call: in every state in which
    [SearchRepos] has returned, with a sequence or with an error, the pool
    still has its ten workers and every one of them has returned. *)
Theorem SearchRepos_joins_workers (E : Env) (info : patternInfo)
    (repos : list string) (sched : list label) (s : state)
    (ret : list repoMatch * option error) :
  exec E info sched (init repos) = Some s → main s = MDone ret →
  workers s = replicate nworkers WDone.
Proof.
  intros Hx Hm.
  pose proof (exec_sound E info sched _ _ (sound_init repos) Hx) as Hs.
  pose proof (exec_tidy E info sched _ _ (sound_init repos) (tidy_init repos) Hx)
    as [Hlen _ _].
  destruct Hs as [_ _ Hj _ _]. rewrite Hm in Hj. specialize (Hj eq_refl).
  symmetry. apply replicate_as_Forall. split; [done|].
  eapply Forall_impl; [exact Hj|]. by intros w ->.
Qed.

Lemma SearchRepos_joins_workers_witness :
  match exec unconfigured_env info0 five_sched (init five_repos) with
  | Some s =>
      main s = MDone ([], Some ContextCanceled)
      ∧ workers s = replicate nworkers WDone
  | None => False
  end.
Proof.
  destruct (exec unconfigured_env info0 five_sched (init five_repos))
    as [s|] eqn:Hx; [|by vm_compute in Hx].
  assert (main s = MDone ([], Some ContextCanceled)) as Hm.
  { vm_compute in Hx. by injection Hx as <-. }
  split; [exact Hm|].
  exact (SearchRepos_joins_workers _ _ _ _ _ _ Hx Hm).
Defined.

(** X17.  The accumulator goroutine outlives a call that returns an error:
    [SearchRepos] returns without receiving from [result], so in the state
    in which it has returned an error the accumulator has not returned, and
    no later move changes either fact. *)
Theorem SearchRepos_error_leaves_accumulator (E : Env) (info : patternInfo)
    (repos : list string) (sched later : list label) (s s' : state)
    (rs : list repoMatch) (e : error) :
  exec E info sched (init repos) = Some s → main s = MDone (rs, Some e) →
  exec E info later s = Some s' →
  main s' = MDone (rs, Some e) ∧ acc s' ≠ ADone.
Proof.
  intros Hx Hm Hl.
  pose proof (exec_sound E info sched _ _ (sound_init repos) Hx) as Hs.
  pose proof (exec_tidy E info sched _ _ (sound_init repos) (tidy_init repos) Hx)
    as Ht.
  assert (main s' = MDone (rs, Some e) ∧ sound s' ∧ tidy s') as (Hm' & _ & Ht').
  { clear Hx. revert s Hm Hs Ht Hl.
    induction later as [|l later IH]; simpl; intros s Hm Hs Ht Hl.
    { by simplify_eq. }
    destruct (step E info l s) as [s1|] eqn:Hstep; [|done].
    apply (IH s1); eauto using step_sound, step_tidy, step_returned. }
  split; [done|]. intros Ha.
  destruct Ht' as [_ _ Hacc]. destruct (Hacc Ha) as [rs0 ?]. congruence.
Qed.

Lemma SearchRepos_error_leaves_accumulator_witness :
  match exec unconfigured_env info0 five_sched (init five_repos) with
  | Some s =>
      match exec unconfigured_env info0 [Sort] s with
      | Some s' => main s' = MDone ([], Some ContextCanceled) ∧ acc s' ≠ ADone
      | None => False
      end
  | None => False
  end.
Proof.
  destruct (exec unconfigured_env info0 five_sched (init five_repos))
    as [s|] eqn:Hx; [|by vm_compute in Hx].
  assert (main s = MDone ([], Some ContextCanceled)) as Hm.
  { vm_compute in Hx. by injection Hx as <-. }
  destruct (exec unconfigured_env info0 [Sort] s)
    as [s'|] eqn:Hl.
  - exact (SearchRepos_error_leaves_accumulator _ _ _ _ _ _ _ _ _ Hx Hm Hl).
  - vm_compute in Hx. injection Hx as <-. by vm_compute in Hl.
Defined.

(** ** The orchestrator: what happens before the cancellation *)

Lemma patient_init (repos : list string) : patient (init repos).
Proof.
  split; simpl; try done.
  - intros _. unfold nworkers. repeat constructor.
  - by left.
Qed.

Lemma step_patient (E : Env) (info : patternInfo) (l : label) (s s' : state) :
  sound s → patient s → step E info l s = Some s' → patient s'.
Proof.
  destruct s as [c p m ws a ff ev].
  intros [_ _ Hj _ _] [He Hf Hw Hc Hd] Hstep; simpl in *.
  step_cases Hstep; simpl in *.
  all: split; simpl; try done.
  all: try (intros; by apply cancel_with_Some).
  all: intros Hp; specialize (He Hp); specialize (Hf Hp);
    specialize (Hw Hp); specialize (Hc Hp); subst.
  all: try done.
  all: try (match goal with
            | Hi : _ !! _ = Some _ |- _ =>
                pose proof (parked_lookup _ _ _ Hw Hi); discriminate
            end).
  all: try (by apply Forall_insert).
  all: try (by right).
  all: try (destruct Hc as [?|?]; [by simplify_eq|discriminate]).
  all: try (destruct Hc as [?|?]; [by left|discriminate]).
  all: destruct Hc as [->|Hcl]; [done|]; specialize (Hj Hcl); not_all_done.
Qed.

Lemma exec_patient (E : Env) (info : patternInfo) (sched : list label)
    (s s' : state) :
  sound s → patient s → exec E info sched s = Some s' → patient s'.
Proof.
  revert s. induction sched as [|l sched IH]; simpl; intros s Hs Hp Hx.
  { by simplify_eq. }
  destruct (step E info l s) as [s1|] eqn:Hstep; [|done].
  eauto using step_sound, step_patient.
Qed.

(** X18.  Nothing is done for any repository before the caller's own
    context is cancelled: in every state in which a repository has been
    looked up, resolved or searched, or in which a search has failed, or in
    which a worker is inside [searchRepo] or delivering, the caller's
    context has been cancelled. *)
Theorem SearchRepos_works_after_cancellation (E : Env) (info : patternInfo)
    (repos : list string) (sched : list label) (s : state) :
  exec E info sched (init repos) = Some s →
  events s ≠ [] ∨ first_failure s ≠ None
  ∨ (∃ i w, workers s !! i = Some w ∧ is_parked w = false) →
  parent_done s = true ∧ ctx_err s ≠ None.
Proof.
  intros Hx Hwork.
  pose proof (exec_patient E info sched _ _ (sound_init repos)
                (patient_init repos) Hx) as [He Hf Hw Hc Hd].
  destruct (parent_done s) eqn:Hp; [by split; [|apply Hd]|].
  specialize (He eq_refl). specialize (Hf eq_refl). specialize (Hw eq_refl).
  destruct Hwork as [?|[?|(i & w & Hi & Hw')]]; [done|done|].
  pose proof (parked_lookup _ _ _ Hw Hi). congruence.
Qed.

Lemma SearchRepos_works_after_cancellation_witness :
  match exec (sample_env searcher_url ["a"]) info0 two_sched (init ["a"; "b"]) with
  | Some s => events s ≠ [] ∧ parent_done s = true ∧ ctx_err s ≠ None
  | None => False
  end.
Proof.
  destruct (exec (sample_env searcher_url ["a"]) info0 two_sched (init ["a"; "b"]))
    as [s|] eqn:Hx; [|by vm_compute in Hx].
  assert (events s ≠ []) as He.
  { vm_compute in Hx. by injection Hx as <-. }
  split; [exact He|].
  exact (SearchRepos_works_after_cancellation _ _ _ _ _ Hx (or_introl He)).
Defined.

(** ** The orchestrator: every repository once *)

Lemma looked_up_textSearch (E : Env) (repo commit : string) (p : patternInfo) :
  looked_up (textSearch E repo commit p).2 = [].
Proof.
  unfold textSearch. repeat (case_match; simpl); done.
Qed.

Lemma looked_up_searchRepo (E : Env) (repoName : string) (info : patternInfo) :
  looked_up (searchRepo E repoName info).2 = [repoName].
Proof.
  pose proof (looked_up_textSearch E repoName) as Ht.
  unfold searchRepo.
  destruct (GetByURI E repoName) as [e|repo]; [done|].
  destruct (ResolveRev E (ID repo)) as [[commit|] err]; simpl; [|done].
  specialize (Ht (CommitID commit) info).
  destruct (textSearch E repoName (CommitID commit) info) as [[fms [e1|]] net];
    simpl in *; by rewrite Ht.
Qed.

Lemma looked_up_app (evs1 evs2 : list event) :
  looked_up (evs1 ++ evs2) = looked_up evs1 ++ looked_up evs2.
Proof. apply omap_app. Qed.

Lemma accounted_init (repos : list string) : accounted repos (init repos).
Proof. intros _. unfold init; simpl. by rewrite app_nil_r. Qed.

Lemma step_accounted (E : Env) (info : patternInfo) (repos : list string)
    (l : label) (s s' : state) :
  accounted repos s → step E info l s = Some s' → accounted repos s'.
Proof.
  destruct s as [c p m ws a ff ev].
  unfold accounted. intros Hp Hstep; simpl in *.
  step_cases Hstep; simpl in *; try done.
  all: specialize (Hp ltac:(done)); intros _.
  all: try (match goal with
            | Hs : searchRepo _ ?r _ = (_, ?evs) |- _ =>
                pose proof (looked_up_searchRepo E r info) as Hlk;
                rewrite Hs in Hlk; simpl in Hlk;
                rewrite looked_up_app, Hlk
            end).
  all: try (match goal with
            | Hi : _ !! ?i = Some ?w |- context [<[?i := ?w']> _] =>
                pose proof (held_insert _ _ _ w' Hi) as Hh; simpl in Hh;
                rewrite ?app_nil_r in Hh
            end).
  all: rewrite <- Hp; try done.
  all: try (rewrite Hh; solve_Permutation).
  all: try (rewrite <- Hh; solve_Permutation).
  all: apply Permutation_app_inv_r in Hh; by rewrite Hh.
Qed.

Lemma exec_accounted (E : Env) (info : patternInfo) (repos : list string)
    (sched : list label) (s s' : state) :
  accounted repos s → exec E info sched s = Some s' → accounted repos s'.
Proof.
  revert s. induction sched as [|l sched IH]; simpl; intros s Ha Hx.
  { by simplify_eq. }
  destruct (step E info l s) as [s1|] eqn:Hstep; [|done].
  eauto using step_accounted.
Qed.

(** X19.  A failure stops nothing: in every state in which [SearchRepos]
    has returned, with a sequence or with an error, every repository of
    the list has been looked up, each as often as it occurs in the list;
    and as long as no goroutine has panicked, no repository has been looked
    up more often than it occurs in the list. *)
Theorem SearchRepos_looks_up_every_repository (E : Env) (info : patternInfo)
    (repos : list string) (sched : list label) (s : state) :
  exec E info sched (init repos) = Some s →
  (main s ≠ MCrashed → looked_up (events s) ⊆+ repos)
  ∧ (∀ ret, main s = MDone ret → looked_up (events s) ≡ₚ repos).
Proof.
  intros Hx.
  pose proof (exec_accounted E info repos sched _ _ (accounted_init repos) Hx)
    as Ha.
  split.
  - intros Hm. rewrite <- (Ha Hm).
    rewrite app_assoc. apply submseteq_inserts_l. done.
  - intros ret Hm.
    pose proof (exec_sound E info sched _ _ (sound_init repos) Hx)
      as [_ _ Hj _ _].
    rewrite Hm in Hj. specialize (Hj eq_refl).
    assert (main s ≠ MCrashed) as Hnc by congruence.
    specialize (Ha Hnc). rewrite Hm, (held_all_done _ Hj) in Ha. done.
Qed.

Lemma SearchRepos_looks_up_every_repository_witness :
  match exec unconfigured_env info0 five_sched (init five_repos) with
  | Some s =>
      (main s ≠ MCrashed → looked_up (events s) ⊆+ five_repos)
      ∧ (∀ ret, main s = MDone ret → looked_up (events s) ≡ₚ five_repos)
  | None => False
  end.
Proof.
  destruct (exec unconfigured_env info0 five_sched (init five_repos))
    as [s|] eqn:Hx; [|by vm_compute in Hx].
  exact (SearchRepos_looks_up_every_repository _ _ _ _ _ Hx).
Defined.

(** ** The orchestrator: runs are finite *)

Lemma step_moves_bound (E : Env) (info : patternInfo) (l : label) (s s' : state) :
  step E info l s = Some s' → moves_bound s' < moves_bound s.
Proof.
  destruct s as [c p m ws a ff ev]. intros Hstep.
  step_cases Hstep; unfold moves_bound; simpl in *; try destruct p.
  all: try (match goal with
            | Hi : _ !! ?i = Some ?w |- context [<[?i := ?w']> _] =>
                pose proof (sum_list_with_insert rank _ _ _ w' Hi) as Hsum;
                simpl in Hsum
            end).
  all: try (match goal with
            | Hi : _ !! ?i = Some ?w |- _ =>
                pose proof (sum_list_with_lookup rank _ _ _ Hi) as Hlow;
                simpl in Hlow
            end).
  all: lia.
Qed.

Lemma exec_moves_bound (E : Env) (info : patternInfo) (sched : list label)
    (s s' : state) :
  exec E info sched s = Some s' →
  (length sched + moves_bound s' ≤ moves_bound s)%nat.
Proof.
  revert s. induction sched as [|l sched IH]; simpl; intros s Hx.
  { simplify_eq. lia. }
  destruct (step E info l s) as [s1|] eqn:Hstep; [|done].
  pose proof (step_moves_bound E info l s s1 Hstep). specialize (IH s1 Hx). lia.
Qed.

(** X20.  A call cannot spin: no run of [SearchRepos] over [n] repositories
    makes more than [5 n + 17] moves, so every run comes to a return or to
    a standstill. *)
Theorem SearchRepos_runs_are_bounded (E : Env) (info : patternInfo)
    (repos : list string) (sched : list label) (s : state) :
  exec E info sched (init repos) = Some s →
  (length sched ≤ 5 * length repos + 17)%nat.
Proof.
  intros Hx. pose proof (exec_moves_bound E info sched _ _ Hx) as Hb.
  assert (moves_bound (init repos) = 5 * length repos + 17) as Hi.
  { unfold moves_bound, init; simpl. lia. }
  lia.
Qed.

Lemma SearchRepos_runs_are_bounded_witness :
  exec unconfigured_env info0 five_sched (init five_repos) ≠ None
  ∧ (length five_sched ≤ 5 * length five_repos + 17)%nat.
Proof.
  destruct (exec unconfigured_env info0 five_sched (init five_repos))
    as [s|] eqn:Hx; [|by vm_compute in Hx].
  split; [done|].
  exact (SearchRepos_runs_are_bounded _ _ _ _ _ Hx).
Defined.

(** ** The orchestrator: when the pool cannot die *)

Lemma held_lookup (ws : list wstate) (i : nat) (w : wstate) (r : string) :
  ws !! i = Some w → r ∈ hold w → r ∈ held ws.
Proof.
  revert i. induction ws as [|w0 ws IH]; intros [|i] Hi Hr; simpl in *; try done.
  - injection Hi as ->. apply elem_of_app. by left.
  - apply elem_of_app. right. eauto.
Qed.

Lemma some_worker_is_idle (ws : list wstate) :
  (0 < sum_list_with is_idle ws)%nat → ∃ i, ws !! i = Some WRecv.
Proof.
  induction ws as [|w ws IH]; simpl; [lia|]. intros Hpos.
  destruct w; try (by exists 0);
    (destruct IH as [i Hi]; [simpl in Hpos; lia|by exists (S i)]).
Qed.

Lemma some_worker_is_live (ws : list wstate) :
  (0 < sum_list_with is_live ws)%nat → ∃ i w, ws !! i = Some w ∧ w ≠ WDone.
Proof.
  induction ws as [|w ws IH]; simpl; [lia|]. intros Hpos.
  destruct w; try (by exists 0; eexists);
    (destruct IH as (i & w & Hi & Hw); [simpl in Hpos; lia|by exists (S i), w]).
Qed.

Lemma some_worker_not_done (ws : list wstate) :
  forallb is_done ws = false → ∃ i w, ws !! i = Some w ∧ w ≠ WDone.
Proof.
  induction ws as [|w ws IH]; simpl; [done|]. intros Hd.
  destruct w; try (by exists 0; eexists).
  destruct (IH Hd) as (i & w & Hi & Hw). by exists (S i), w.
Qed.

(** A worker that has not returned can move, once the context is
    cancelled, as long as the accumulator is receiving. *)
Lemma live_worker_moves (E : Env) (info : patternInfo) (s : state) (i : nat)
    (w : wstate) :
  main s ≠ MCrashed → ctx_err s ≠ None → (∃ received, acc s = ARecv received) →
  workers s !! i = Some w → w ≠ WDone → w ≠ WRecv →
  ∃ l s', is_internal l = true ∧ step E info l s = Some s'.
Proof.
  destruct s as [c p m ws a ff ev]; simpl.
  intros Hm Hc [received ->] Hi Hd Hr.
  destruct c as [ce|]; [|done].
  destruct w as [|repo|repo|rm|]; try done.
  - exists (Check i). unfold step; simpl. rewrite Hi.
    destruct m; try done; by eexists.
  - exists (Search i). unfold step; simpl. rewrite Hi.
    destruct (searchRepo E repo info) as [[[rm [e|]]|] evs];
      destruct m; try done; by eexists.
  - exists (Send i). unfold step; simpl. rewrite Hi.
    destruct m; try done; by eexists.
Qed.

Lemma supplied_progress (E : Env) (info : patternInfo) (s : state) :
  supplied E info s → tidy s → ctx_err s ≠ None →
  (∃ ret, main s = MDone ret)
  ∨ (∃ l s', is_internal l = true ∧ step E info l s = Some s').
Proof.
  intros [Hroom Hacc] [_ _ Hta] Hc.
  destruct (main s) as [rest| | | |ret|] eqn:Hm; [| | | | |done].
  - (* feeding *)
    right. destruct rest as [|r rest].
    { exists CloseRepos. unfold step. rewrite Hm. eexists; split; reflexivity. }
    assert (∃ i w, workers s !! i = Some w ∧ w ≠ WDone) as (i & w & Hi & Hw).
    { unfold room in Hroom. rewrite Hm in Hroom. simpl in Hroom.
      destruct Hroom as [Hidle|Hlive].
      - destruct (some_worker_is_idle (workers s)) as [i Hi]; [lia|].
        by exists i, WRecv.
      - apply some_worker_is_live. lia. }
    assert (w = WRecv ∨ w ≠ WRecv) as [->|Hr]
      by (destruct w; by (left + right)).
    + exists (Feed i). unfold step. rewrite Hm, Hi. eexists; split; reflexivity.
    + apply (live_worker_moves E info s i w); try done; congruence.
  - (* waiting *)
    right. destruct (forallb is_done (workers s)) eqn:Hd.
    { exists Join. unfold step. rewrite Hm, Hd. eexists; split; reflexivity. }
    destruct (some_worker_not_done _ Hd) as (i & w & Hi & Hw).
    assert (w = WRecv ∨ w ≠ WRecv) as [->|Hr]
      by (destruct w; by (left + right)).
    + exists (Exit i). unfold step. rewrite Hm, Hi. eexists; split; reflexivity.
    + apply (live_worker_moves E info s i w); try done; congruence.
  - right. exists CheckErr. unfold step. rewrite Hm.
    destruct (ctx_err s); eexists; split; reflexivity.
  - right. destruct (acc s) as [received|flattened|] eqn:Ha.
    + exists Sort. unfold step. rewrite Hm, Ha. eexists; split; reflexivity.
    + exists Result. unfold step. rewrite Hm, Ha. eexists; split; reflexivity.
    + destruct (Hta eq_refl) as [rs ?]. congruence.
  - left. by exists ret.
Qed.

Lemma supplied_init (E : Env) (info : patternInfo) (repos : list string) :
  (length repos ≤ nworkers)%nat ∨ (failures E info repos < nworkers)%nat →
  supplied E info (init repos).
Proof.
  intros Hr. split; simpl; [|by eexists].
  unfold room, init, nworkers in *; simpl. destruct Hr; [left|right]; lia.
Qed.

Lemma step_supplied (E : Env) (info : patternInfo) (repos : list string)
    (l : label) (s s' : state) :
  Forall (λ r, panics E info r = false) repos →
  accounted repos s → supplied E info s →
  step E info l s = Some s' → supplied E info s'.
Proof.
  destruct s as [c p m ws a ff ev].
  intros Hsafe Hacct [Hroom Hacc] Hstep; unfold room in *; simpl in *.
  step_cases Hstep; simpl in *; try done.
  all: try (match goal with
            | Hi : _ !! _ = Some (WSearch ?r),
              Hs : searchRepo _ ?r _ = (Panicked, _) |- _ =>
                exfalso;
                assert (r ∈ repos) as Hin
                  by (rewrite <- (Hacct ltac:(done));
                      apply elem_of_app; right; apply elem_of_app; left;
                      apply (held_lookup _ _ _ _ Hi); simpl; by left);
                rewrite Forall_forall in Hsafe; specialize (Hsafe r Hin);
                unfold panics in Hsafe; by rewrite Hs in Hsafe
            end).
  all: split; unfold room; simpl; try (by eauto).
  all: try (by left; lia).
  all: try (match goal with
            | Hi : _ !! ?i = Some ?w |- context [<[?i := ?w']> _] =>
                pose proof (sum_list_with_insert is_idle _ _ _ w' Hi) as Hidle;
                pose proof (sum_list_with_insert is_live _ _ _ w' Hi) as Hlive;
                pose proof (sum_list_with_insert
                              (λ x, failures E info (hold x)) _ _ _ w' Hi) as Hfail;
                simpl in Hidle, Hlive, Hfail
            end).
  all: try (match goal with
            | Hs : searchRepo _ ?r _ = _ |- _ =>
                assert (failure_of E info r = failure_of E info r) as Hf by done;
                unfold failure_of at 2 in Hf; unfold fails in Hf;
                rewrite Hs in Hf; simpl in Hf
            end).
  all: try (unfold failures in *; simpl in *;
            destruct Hroom as [?|?]; [left; lia|right; lia]).
Qed.

Lemma step_ctx_err (E : Env) (info : patternInfo) (l : label) (s s' : state) :
  ctx_err s ≠ None → step E info l s = Some s' → ctx_err s' ≠ None.
Proof.
  destruct s as [c p m ws a ff ev]. intros Hc Hstep; simpl in *.
  step_cases Hstep; simpl in *; try done.
  all: by apply cancel_with_Some.
Qed.

Lemma supplied_must_return (E : Env) (info : patternInfo) (repos : list string)
    (s : state) :
  Forall (λ r, panics E info r = false) repos →
  sound s → tidy s → accounted repos s → supplied E info s →
  ctx_err s ≠ None →
  must_return E info false (λ _, True) s.
Proof.
  intros Hsafe.
  remember (moves_bound s) as n eqn:Hn. revert s Hn.
  induction n as [n IH] using lt_wf_ind. intros s -> Hs Ht Ha Hsup Hc.
  destruct (supplied_progress E info s Hsup Ht Hc) as [[ret Hm]|Hex].
  - by eapply must_return_done.
  - apply must_return_step; [done|].
    intros l s' _ Hstep.
    apply (IH _ (step_moves_bound E info l s s' Hstep)); [done|..].
    + eapply step_sound; eauto.
    + eapply step_tidy; eauto.
    + eapply step_accounted; eauto.
    + eapply step_supplied; eauto.
    + eapply step_ctx_err; eauto.
Qed.

Lemma exec_supplied (E : Env) (info : patternInfo) (repos : list string)
    (sched : list label) (s s' : state) :
  Forall (λ r, panics E info r = false) repos →
  accounted repos s → supplied E info s →
  exec E info sched s = Some s' → supplied E info s'.
Proof.
  intros Hsafe. revert s.
  induction sched as [|l sched IH]; simpl; intros s Ha Hs Hx.
  { by simplify_eq. }
  destruct (step E info l s) as [s1|] eqn:Hstep; [|done].
  eauto using step_accounted, step_supplied.
Qed.

(** X21.  When no search panics and either there are at most ten
    repositories or fewer than ten of them fail, a call whose context has
    been cancelled returns, whatever the scheduler does from there on: the
    send on [repositories] always finds a worker. *)
Theorem SearchRepos_returns_when_supplied (E : Env) (info : patternInfo)
    (repos : list string) (sched : list label) (s : state) :
  (length repos ≤ nworkers)%nat ∨ (failures E info repos < nworkers)%nat →
  Forall (λ r, panics E info r = false) repos →
  exec E info sched (init repos) = Some s →
  ctx_err s ≠ None →
  must_return E info false (λ _, True) s.
Proof.
  intros Hr Hsafe Hx Hc.
  apply (supplied_must_return E info repos); try done.
  - eapply exec_sound; eauto using sound_init.
  - eapply exec_tidy; eauto using sound_init, tidy_init.
  - eapply exec_accounted; eauto using accounted_init.
  - eapply exec_supplied; eauto using accounted_init, supplied_init.
Qed.

Lemma SearchRepos_returns_when_supplied_witness :
  match exec unconfigured_env info0 [EnvCancel false; Feed 0]
          (init five_repos) with
  | Some s =>
      must_return unconfigured_env info0 false (λ _, True) s
  | None => False
  end.
Proof.
  destruct (exec unconfigured_env info0 [EnvCancel false; Feed 0]
              (init five_repos)) as [s|] eqn:Hx; [|by vm_compute in Hx].
  assert (ctx_err s ≠ None) as Hc.
  { vm_compute in Hx. by injection Hx as <-. }
  assert (Forall (λ r, panics unconfigured_env info0 r = false)
            five_repos) as Hsafe
    by (apply (bool_decide_unpack _); by vm_compute).
  assert ((length five_repos ≤ nworkers)%nat
          ∨ (failures unconfigured_env info0 five_repos
             < nworkers)%nat) as Hr
    by (left; unfold five_repos, nworkers; simpl; lia).
  exact (SearchRepos_returns_when_supplied _ _ _ _ _ Hr Hsafe Hx Hc).
Defined.

(** X22.  Whatever [SearchRepos] returns, the sequence is empty: it is
    [(nil, ctx.Err())], or the empty result of a call that was given no
    repository. *)
Theorem SearchRepos_returns_no_match (E : Env) (info : patternInfo)
    (repos : list string) (sched : list label)
    (ret : list repoMatch * option error) :
  SearchRepos E info repos sched = Some ret →
  (repos = [] ∧ ret = ([], None))
  ∨ (∃ e, is_ctx_error e ∧ ret = ([], Some e)).
Proof.
  destruct ret as [rs [e|]]; intros Hret.
  - right. destruct (SearchRepos_return_shape _ _ _ _ _ _ Hret)
      as [?|(-> & e' & [= <-] & He)]; [done|]. eauto.
  - left. destruct (SearchRepos_result_needs_no_repositories _ _ _ _ _ Hret)
      as [-> ->]. done.
Qed.

Lemma SearchRepos_returns_no_match_witness :
  SearchRepos unconfigured_env info0 five_repos five_sched
  = Some ([], Some ContextCanceled)
  ∧ ((five_repos = [] ∧ (([], Some ContextCanceled) : list repoMatch * option error)
                         = ([], None))
     ∨ (∃ e, is_ctx_error e
             ∧ (([], Some ContextCanceled) : list repoMatch * option error)
               = ([], Some e))).
Proof.
  assert (SearchRepos unconfigured_env info0 five_repos five_sched
          = Some ([], Some ContextCanceled)) as H by (by vm_compute).
  split; [exact H|].
  exact (SearchRepos_returns_no_match _ _ _ _ _ H).
Defined.

(** ** The orchestrator: panics *)




